(** * Federated hospital learning: round control, FedAvg aggregation and the
      global model store of the coordinator (server/round_manager.go and
      server/main.go), as a shallow embedding.

    Conventions.
    - Go's [int] is taken at 64 bits; [x++] is written with its wrap-around.
    - [float64] is Rocq's primitive binary64 float; Go's [+] and [/] on
      float64 are [PrimFloat.add] and [PrimFloat.div].
    - [map[string]bool] is a [gmap string bool]; reading a missing key gives
      [false], [len] is [size].
    - A nil slice that is only tested against nil is an [option (list _)]
      with [None] for nil; a slice that is only appended to, measured and
      ranged over is a [list].
    - Every method body that runs under the mutex is one atomic transition. *)

From Stdlib Require Import ZArith Lia Floats.
From stdpp Require Import gmap strings list fin_maps.

Local Open Scope Z_scope.

(** ** Go's int *)

Module GoInt.

Definition min_int : Z := - 2 ^ 63.
Definition max_int : Z := 2 ^ 63 - 1.

Definition in_range (z : Z) : Prop := min_int <= z <= max_int.

(** Two's complement reduction of a mathematical integer to [int]. *)
Definition wrap (z : Z) : Z := (z + 2 ^ 63) mod 2 ^ 64 - 2 ^ 63.

(** [x++] *)
Definition incr (z : Z) : Z := wrap (z + 1).

End GoInt.

(** ** server/round_manager.go *)

Module Round.

Inductive RoundState : Set :=
  | RoundWaiting
  | RoundAggregating
  | RoundComplete.

#[global] Instance RoundState_eq_dec : EqDecision RoundState.
Proof. solve_decision. Defined.

Definition RoundState_String (s : RoundState) : string :=
  match s with
  | RoundWaiting => "WAITING"
  | RoundAggregating => "AGGREGATING"
  | RoundComplete => "COMPLETE"
  end.

Record RoundManager : Type := mkRoundManager {
  CurrentRound : Z;
  ExpectedClients : Z;
  ReceivedClients : gmap string bool;
  State : RoundState
}.

Definition NewRoundManager (quorum : Z) : RoundManager :=
  {| CurrentRound := 0;
     ExpectedClients := quorum;
     ReceivedClients := ∅;
     State := RoundWaiting |}.

(** [rm.ReceivedClients[hospitalID]]: the zero value for a missing key. *)
Definition has_submitted (hospitalID : string) (rm : RoundManager) : bool :=
  default false (ReceivedClients rm !! hospitalID).

(** [len(rm.ReceivedClients)] *)
Definition received (rm : RoundManager) : Z :=
  Z.of_nat (size (ReceivedClients rm)).

(** The pair is [(accepted, quorumMet)]. *)
Definition RecordUpdate (hospitalID : string) (roundID : Z) (rm : RoundManager)
  : (bool * bool) * RoundManager :=
  if decide (roundID ≠ CurrentRound rm) then ((false, false), rm)
  else if decide (State rm ≠ RoundWaiting) then ((false, false), rm)
  else if has_submitted hospitalID rm then ((false, false), rm)
  else
    let rm1 :=
      {| CurrentRound := CurrentRound rm;
         ExpectedClients := ExpectedClients rm;
         ReceivedClients := <[hospitalID := true]> (ReceivedClients rm);
         State := State rm |} in
    if decide (received rm1 >= ExpectedClients rm1)
    then ((true, true),
          {| CurrentRound := CurrentRound rm1;
             ExpectedClients := ExpectedClients rm1;
             ReceivedClients := ReceivedClients rm1;
             State := RoundAggregating |})
    else ((true, false), rm1).

Definition AdvanceRound (rm : RoundManager) : RoundManager :=
  {| CurrentRound := GoInt.incr (CurrentRound rm);
     ExpectedClients := ExpectedClients rm;
     ReceivedClients := ∅;
     State := RoundWaiting |}.

Definition Status (rm : RoundManager) : Z * Z * Z * RoundState :=
  (CurrentRound rm, ExpectedClients rm, received rm, State rm).

(** *** Sequences of calls *)

(** A run of [RecordUpdate] calls on one manager: the answers in call order
    and the manager left behind. *)
Fixpoint run_calls (calls : list (string * Z)) (rm : RoundManager)
  : list (bool * bool) * RoundManager :=
  match calls with
  | [] => ([], rm)
  | (hospitalID, roundID) :: rest =>
      let '(answer, rm1) := RecordUpdate hospitalID roundID rm in
      let '(answers, rm2) := run_calls rest rm1 in
      (answer :: answers, rm2)
  end.

(** Calls of either method, for the reachable states of a manager. *)
Inductive Call : Type :=
  | CallRecordUpdate (hospitalID : string) (roundID : Z)
  | CallAdvanceRound.

Definition apply_call (rm : RoundManager) (c : Call) : RoundManager :=
  match c with
  | CallRecordUpdate hospitalID roundID => (RecordUpdate hospitalID roundID rm).2
  | CallAdvanceRound => AdvanceRound rm
  end.

Definition apply_calls (cs : list Call) (rm : RoundManager) : RoundManager :=
  fold_left apply_call cs rm.

(** The state a round starts in: nobody recorded, open for submissions. *)
Definition round_start (rm : RoundManager) : Prop :=
  ReceivedClients rm = ∅ ∧ State rm = RoundWaiting.

(** Only [true] is ever stored in the participant map. *)
Definition only_true (rm : RoundManager) : Prop :=
  ∀ k v, ReceivedClients rm !! k = Some v → v = true.

(** While a round is open, fewer than the quorum have been recorded. *)
Definition open_below_quorum (rm : RoundManager) : Prop :=
  State rm = RoundWaiting → received rm < ExpectedClients rm.

(** The four ways out of [RecordUpdate], as one case analysis. *)
Inductive RecordUpdate_cases (h : string) (r : Z) (rm : RoundManager) : (bool * bool) * RoundManager → Prop :=
  | RU_mismatch :
      r ≠ CurrentRound rm →
      RecordUpdate_cases h r rm ((false, false), rm)
  | RU_closed :
      r = CurrentRound rm → State rm ≠ RoundWaiting →
      RecordUpdate_cases h r rm ((false, false), rm)
  | RU_duplicate :
      r = CurrentRound rm → State rm = RoundWaiting →
      ReceivedClients rm !! h = Some true →
      RecordUpdate_cases h r rm ((false, false), rm)
  | RU_quorum :
      r = CurrentRound rm → State rm = RoundWaiting →
      has_submitted h rm = false →
      Z.of_nat (size (<[h := true]> (ReceivedClients rm))) >= ExpectedClients rm →
      RecordUpdate_cases h r rm
        ((true, true),
         {| CurrentRound := CurrentRound rm;
            ExpectedClients := ExpectedClients rm;
            ReceivedClients := <[h := true]> (ReceivedClients rm);
            State := RoundAggregating |})
  | RU_recorded :
      r = CurrentRound rm → State rm = RoundWaiting →
      has_submitted h rm = false →
      Z.of_nat (size (<[h := true]> (ReceivedClients rm))) < ExpectedClients rm →
      RecordUpdate_cases h r rm
        ((true, false),
         {| CurrentRound := CurrentRound rm;
            ExpectedClients := ExpectedClients rm;
            ReceivedClients := <[h := true]> (ReceivedClients rm);
            State := RoundWaiting |}).

End Round.

(** ** server/main.go *)

Module Server.

Import Round.

Record Metadata : Type := mkMetadata {
  HospitalID : string;
  DataSize : Z;
  Loss : float;
  RoundID : Z;
  ModelVersion : Z
}.

Record UpdatePacket : Type := mkUpdatePacket {
  Weights : list float;
  PacketMetadata : Metadata
}.

(** The package-level variables. [mu] and [aggregationMutex] are the two
    locks; what they guard runs as one transition. *)
Record Server : Type := mkServer {
  receivedUpdates : list UpdatePacket;
  globalWeights : option (list float);
  currentVersion : Z;
  roundManager : RoundManager
}.

(** The variables as the Go runtime initialises them, with
    [roundManager = NewRoundManager(3)]. *)
Definition initServer : Server :=
  {| receivedUpdates := [];
     globalWeights := None;
     currentVersion := 0;
     roundManager := NewRoundManager 3 |}.

(** [float64(n)] for a slice length [n]. *)
Definition float64_of_len (n : nat) : float :=
  PrimFloat.of_uint63 (Uint63.of_Z (Z.of_nat n)).

(** [make([]float64, n)] *)
Definition make_floats (n : nat) : list float := replicate n PrimFloat.zero.

(** *** handleSubmitUpdate *)

Inductive SubmitResponse : Type :=
  | SubmitBadRequest
  | SubmitConflict
  | SubmitAccepted (total_received : Z) (round_received : Z)
                   (round_state : string) (quorum_met : bool).

(** The handler from the decoded packet on. When [quorum_met] is answered
    the handler has started [aggregateUpdates] in a goroutine of its own. *)
Definition handleSubmitUpdate (packet : UpdatePacket) (s : Server)
  : SubmitResponse * Server :=
  if decide (length (Weights packet) = 0%nat
             ∨ HospitalID (PacketMetadata packet) = ""
             ∨ DataSize (PacketMetadata packet) <= 0)
  then (SubmitBadRequest, s)
  else
    let '((accepted, quorumMet), rm1) :=
      RecordUpdate (HospitalID (PacketMetadata packet))
                   (RoundID (PacketMetadata packet)) (roundManager s) in
    if negb accepted then
      (SubmitConflict,
       {| receivedUpdates := receivedUpdates s;
          globalWeights := globalWeights s;
          currentVersion := currentVersion s;
          roundManager := rm1 |})
    else
      let updates := receivedUpdates s ++ [packet] in
      let count := Z.of_nat (length updates) in
      let '(_, _, received, state) := Status rm1 in
      (SubmitAccepted count received (RoundState_String state) quorumMet,
       {| receivedUpdates := updates;
          globalWeights := globalWeights s;
          currentVersion := currentVersion s;
          roundManager := rm1 |}).

(** *** aggregateUpdates *)

(** [sumWeights[i] += w]; [None] is the run-time panic of an index out of
    range. *)
Definition add_at (i : nat) (w : float) (sumWeights : list float)
  : option (list float) :=
  match sumWeights !! i with
  | Some x => Some (<[i := PrimFloat.add x w]> sumWeights)
  | None => None
  end.

(** [for i, w := range packet.Weights { sumWeights[i] += w }], from index
    [i] on. *)
Fixpoint range_add (i : nat) (ws : list float) (sumWeights : list float)
  : option (list float) :=
  match ws with
  | [] => Some sumWeights
  | w :: rest =>
      match add_at i w sumWeights with
      | Some sumWeights1 => range_add (S i) rest sumWeights1
      | None => None
      end
  end.

(** [for _, packet := range receivedUpdates { ... }] *)
Fixpoint sum_packets (packets : list UpdatePacket) (sumWeights : list float)
  : option (list float) :=
  match packets with
  | [] => Some sumWeights
  | packet :: rest =>
      match range_add 0 (Weights packet) sumWeights with
      | Some sumWeights1 => sum_packets rest sumWeights1
      | None => None
      end
  end.

(** [newWeights[i] = sum / numUpdates]; [None] is the run-time panic. *)
Definition div_at (i : nat) (sum numUpdates : float) (newWeights : list float)
  : option (list float) :=
  match newWeights !! i with
  | Some _ => Some (<[i := PrimFloat.div sum numUpdates]> newWeights)
  | None => None
  end.

(** [for i, sum := range sumWeights { newWeights[i] = sum / numUpdates }],
    from index [i] on. *)
Fixpoint range_div (i : nat) (sums : list float) (numUpdates : float)
  (newWeights : list float) : option (list float) :=
  match sums with
  | [] => Some newWeights
  | sum :: rest =>
      match div_at i sum numUpdates newWeights with
      | Some newWeights1 => range_div (S i) rest numUpdates newWeights1
      | None => None
      end
  end.

(** Lines 126-141: the sums and the averages over the buffered packets.
    [None] is a run-time panic ([receivedUpdates[0]] on an empty buffer, or
    an index out of range in a loop). *)
Definition fedAvg (updates : list UpdatePacket) : option (list float) :=
  match updates with
  | [] => None
  | first :: _ =>
      let numWeights := length (Weights first) in
      match sum_packets updates (make_floats numWeights) with
      | None => None
      | Some sumWeights =>
          let numUpdates := float64_of_len (length updates) in
          range_div 0 sumWeights numUpdates (make_floats numWeights)
      end
  end.

Record ModelSnapshot : Type := mkModelSnapshot {
  weights : list float;
  version : Z
}.

(** How a run of [aggregateUpdates] ends: the early return, a panic (which
    ends the process), or the new model it stored. *)
Inductive AggOutcome : Type :=
  | AggSkipped
  | AggPanicked
  | AggPublished (snapshot : ModelSnapshot).

Definition aggregateUpdates (s : Server) : AggOutcome * Server :=
  if decide (length (receivedUpdates s) < 3)%nat then (AggSkipped, s)
  else
    match fedAvg (receivedUpdates s) with
    | None => (AggPanicked, s)
    | Some newWeights =>
        let newVersion := GoInt.incr (currentVersion s) in
        (AggPublished {| weights := newWeights; version := newVersion |},
         {| receivedUpdates := [];
            globalWeights := Some newWeights;
            currentVersion := newVersion;
            roundManager := AdvanceRound (roundManager s) |})
    end.

(** *** handleGetGlobalModel *)

Inductive ModelResponse : Type :=
  | ModelNotFound
  | ModelOK (snapshot : ModelSnapshot).

Definition handleGetGlobalModel (s : Server) : ModelResponse :=
  match globalWeights s with
  | None => ModelNotFound
  | Some ws => ModelOK {| weights := ws; version := currentVersion s |}
  end.

(** [handleUpdatesCount] *)
Definition handleUpdatesCount (s : Server) : Z :=
  Z.of_nat (length (receivedUpdates s)).

(** *** Runs of the server *)

(** The state-changing events of a run, one per completed critical section:
    a submission handled, or a started [aggregateUpdates] goroutine running.
    The scheduler may run the goroutine at any later moment, so a run takes
    [OpAggregate] at any position. *)
Inductive Op : Type :=
  | OpSubmit (packet : UpdatePacket)
  | OpAggregate.

(** A run so far: the variables, the snapshots stored so far in order, and
    whether a panic has ended the process. *)
Record Run : Type := mkRun {
  server : Server;
  published : list ModelSnapshot;
  crashed : bool
}.

Definition startRun : Run :=
  {| server := initServer; published := []; crashed := false |}.

Definition step (t : Run) (op : Op) : Run :=
  if crashed t then t
  else
    match op with
    | OpSubmit packet =>
        {| server := (handleSubmitUpdate packet (server t)).2;
           published := published t;
           crashed := false |}
    | OpAggregate =>
        match aggregateUpdates (server t) with
        | (AggSkipped, s1) =>
            {| server := s1; published := published t; crashed := false |}
        | (AggPanicked, s1) =>
            {| server := s1; published := published t; crashed := true |}
        | (AggPublished snapshot, s1) =>
            {| server := s1;
               published := published t ++ [snapshot];
               crashed := false |}
        end
    end.

Definition run (ops : list Op) : Run := fold_left step ops startRun.

(** *** The mean, as the specification words it *)

(** Entry [i] of every vector of the batch, in batch order. *)
Definition column (i : nat) (batch : list (list float)) : list float :=
  map (λ ws, nth i ws PrimFloat.zero) batch.

(** Per dimension: the sum of the entries divided by the number of vectors,
    in float64 arithmetic, summed in batch order from zero. *)
Definition mean (batch : list (list float)) : list float :=
  match batch with
  | [] => []
  | first :: _ =>
      map (λ i, PrimFloat.div (fold_left PrimFloat.add (column i batch) PrimFloat.zero)
                              (float64_of_len (length batch)))
          (seq 0 (length first))
  end.

Definition same_length (batch : list (list float)) : Prop :=
  ∃ n, Forall (λ ws, length ws = n) batch.

(** *** Closed forms of the loops *)

(** What the inner summing loop leaves when it does not panic: the entries of
    [ws] added onto the first entries of [sums]. *)
Fixpoint add_onto (sums ws : list float) : list float :=
  match sums, ws with
  | x :: sums1, w :: ws1 => PrimFloat.add x w :: add_onto sums1 ws1
  | _, _ => sums
  end.

(** Some buffered vector is longer than the first one. *)
Definition longer_than_first (updates : list UpdatePacket) : Prop :=
  match updates with
  | [] => False
  | first :: _ =>
      Exists (λ p, (length (Weights first) < length (Weights p))%nat) updates
  end.

(** No buffered vector is longer than the first one. *)
Definition within_first (updates : list UpdatePacket) : Prop :=
  match updates with
  | [] => False
  | first :: _ =>
      Forall (λ p, (length (Weights p) <= length (Weights first))%nat) updates
  end.

(** The store holds what the last successful aggregation stored, and nothing
    before the first one. *)
Definition store_is_latest (t : Run) : Prop :=
  match last (published t) with
  | None => globalWeights (server t) = None
  | Some snapshot =>
      globalWeights (server t) = Some (weights snapshot)
      ∧ currentVersion (server t) = version snapshot
  end.

(** *** The simulator's submissions *)

(** A packet as client_simulator.go builds it for a client without a model:
    two weights, a data size and a loss, for round [roundID]. *)
Definition simulatorPacket (hospitalID : string) (ws : list float)
  (dataSize : Z) (loss : float) (roundID : Z) : UpdatePacket :=
  {| Weights := ws;
     PacketMetadata :=
       {| HospitalID := hospitalID;
          DataSize := dataSize;
          Loss := loss;
          RoundID := roundID;
          ModelVersion := roundID |} |}.

(** H1, H2 and H3 with [10,20], [20,40] and [30,60]. *)
Definition simulatorPackets (roundID : Z) : list UpdatePacket :=
  [ simulatorPacket "H1" [10%float; 20%float] 100 0.5%float roundID;
    simulatorPacket "H2" [20%float; 40%float] 200 0.25%float roundID;
    simulatorPacket "H3" [30%float; 60%float] 300 (PrimFloat.div 0.5 3)%float roundID ].

(** One round of the simulator against the server: the three submissions,
    then the aggregation the third one starts. *)
Definition simulatorRound (roundID : Z) : list Op :=
  map OpSubmit (simulatorPackets roundID) ++ [OpAggregate].

(** The same three hospitals, H2 sending one weight only. *)
Definition unevenPackets : list UpdatePacket :=
  [ simulatorPacket "H1" [10%float; 20%float] 100 0.5%float 0;
    simulatorPacket "H2" [20%float] 200 0.25%float 0;
    simulatorPacket "H3" [30%float; 60%float] 300 0.125%float 0 ].

(** H2 with its one weight first, then H1 and H3 with two. *)
Definition shortFirstPackets : list UpdatePacket :=
  [ simulatorPacket "H2" [20%float] 200 0.25%float 0;
    simulatorPacket "H1" [10%float; 20%float] 100 0.5%float 0;
    simulatorPacket "H3" [30%float; 60%float] 300 0.125%float 0 ].

End Server.

(** ** Counters and invariants of the round manager and the server *)

Module Inv.

Import Round Server.

(** The [AdvanceRound] calls of a sequence. *)
Fixpoint advances (cs : list Call) : nat :=
  match cs with
  | [] => 0
  | CallAdvanceRound :: rest => S (advances rest)
  | CallRecordUpdate _ _ :: rest => advances rest
  end.

(** The answers with [accepted = true]. *)
Fixpoint accepted_count (answers : list (bool * bool)) : nat :=
  match answers with
  | [] => 0
  | (true, _) :: rest => S (accepted_count rest)
  | (false, _) :: rest => accepted_count rest
  end.

(** What holds of a manager made by [NewRoundManager] through all its
    calls. *)
Definition round_inv (rm : RoundManager) : Prop :=
  only_true rm
  ∧ State rm ≠ RoundComplete
  ∧ (State rm = RoundWaiting → received rm < ExpectedClients rm)
  ∧ (State rm = RoundAggregating → received rm = ExpectedClients rm).

(** The field test of [handleSubmitUpdate]. *)
Definition invalid_fields (packet : UpdatePacket) : Prop :=
  length (Weights packet) = 0%nat
  ∨ HospitalID (PacketMetadata packet) = ""
  ∨ DataSize (PacketMetadata packet) <= 0.

(** The senders of the buffered packets, in buffer order. *)
Definition hospitals (updates : list UpdatePacket) : list string :=
  map (λ p, HospitalID (PacketMetadata p)) updates.

(** The buffer and the round manager tell the same story: one buffered
    packet per recorded hospital, each valid and sent for the current
    round. *)
Definition buffer_matches_round (s : Server) : Prop :=
  NoDup (hospitals (receivedUpdates s))
  ∧ (∀ h, h ∈ hospitals (receivedUpdates s)
          ↔ ReceivedClients (roundManager s) !! h = Some true)
  ∧ Z.of_nat (length (receivedUpdates s)) = received (roundManager s)
  ∧ Forall (λ p, RoundID (PacketMetadata p) = CurrentRound (roundManager s)
                 ∧ ¬ invalid_fields p) (receivedUpdates s).

(** What the server keeps through every step of a run. *)
Definition server_inv (s : Server) : Prop :=
  buffer_matches_round s
  ∧ round_inv (roundManager s)
  ∧ ExpectedClients (roundManager s) = 3
  ∧ CurrentRound (roundManager s) = currentVersion s.

(** Entry [j] of the vectors that have one, added in order onto [x]. *)
Definition ragged_sum (j : nat) (vs : list (list float)) (x : float) : float :=
  fold_left (λ acc v, match v !! j with
                      | Some w => PrimFloat.add acc w
                      | None => acc
                      end) vs x.

End Inv.

(** ** client_simulator.go *)

Module Client.

(** The decoded body of GET /global_model; a nil slice is [None]. *)
Record GlobalModelResponse : Type := mkGlobalModelResponse {
  ServerWeights : option (list float);
  ServerModelVersion : Z
}.

Record LocalClientState : Type := mkLocalClientState {
  ModelVersion : Z;
  Weights : option (list float)
}.


(** [syncModel] from the pair [fetchGlobalModel] returned on. The result is
    the returned flag and the state the pointer then refers to. *)
Definition syncModel (fetched : GlobalModelResponse * bool)
  (state : LocalClientState) : bool * LocalClientState :=
  let '(serverModel, ok) := fetched in
  if negb ok then (false, state)
  else if decide (ServerModelVersion serverModel > ModelVersion state)
  then (true,
        {| ModelVersion := ServerModelVersion serverModel;
           Weights := ServerWeights serverModel |})
  else (false, state).



(** Syncs in a row, each with what its fetch returned. *)
Definition syncAll (fetches : list (GlobalModelResponse * bool))
  (state : LocalClientState) : LocalClientState :=
  fold_left (λ st fetched, (syncModel fetched st).2) fetches state.

(** The versions of the fetches that succeeded. *)
Fixpoint fetchedVersions (fetches : list (GlobalModelResponse * bool))
  : list Z :=
  match fetches with
  | [] => []
  | (serverModel, true) :: rest =>
      ServerModelVersion serverModel :: fetchedVersions rest
  | (_, false) :: rest => fetchedVersions rest
  end.

End Client.

(** ** step-01/hospital/model.go: the flat weight format *)

Module Hospital.

Record Model : Type := mkModel {
  Weights : list float;
  Bias : float
}.

(** [copy(dst, src)]: the first [min(len(dst), len(src))] entries of [src]
    over those of [dst]. *)
Definition copy (dst src : list float) : list float :=
  take (length dst) src ++ drop (length src) dst.

(** [FlatWeights]: [make], [copy], then the bias at index [len(m.Weights)]. *)
Definition FlatWeights (m : Model) : list float :=
  let flat := Server.make_floats (length (Weights m) + 1) in
  let flat := copy flat (Weights m) in
  <[length (Weights m) := Bias m]> flat.

(** [NewModelFromWeights]; [None] is the run-time panic on an empty slice
    ([make] with length -1). *)
Definition NewModelFromWeights (flat : list float) : option Model :=
  match length flat with
  | O => None
  | S n =>
      let weights := copy (Server.make_floats n) (take n flat) in
      match flat !! n with
      | Some bias => Some {| Weights := weights; Bias := bias |}
      | None => None
      end
  end.

End Hospital.

(** * Properties *)

Import Round Server.

(** ** Go's int *)

Section GoIntFacts.

Lemma wrap_in_range z : GoInt.in_range z → GoInt.wrap z = z.
Proof.
  unfold GoInt.in_range, GoInt.min_int, GoInt.max_int, GoInt.wrap.
  intros H. rewrite Z.mod_small; lia.
Qed.

Lemma incr_below_max z :
  GoInt.in_range z → z < GoInt.max_int → GoInt.incr z = z + 1.
Proof.
  unfold GoInt.incr. intros H Hlt. apply wrap_in_range.
  unfold GoInt.in_range, GoInt.min_int, GoInt.max_int in *. lia.
Qed.

(** At the largest [int] the increment wraps to the smallest. *)
Lemma incr_at_max : GoInt.incr GoInt.max_int = GoInt.min_int.
Proof. reflexivity. Qed.

End GoIntFacts.

(** ** RoundManager *)

Section RecordUpdateFacts.

Implicit Types (rm : RoundManager) (h : string) (r : Z).

Lemma has_submitted_true h rm :
  has_submitted h rm = true ↔ ReceivedClients rm !! h = Some true.
Proof.
  unfold has_submitted. destruct (ReceivedClients rm !! h) as [[]|]; simpl;
    split; congruence.
Qed.

Lemma RecordUpdate_inv h r rm : RecordUpdate_cases h r rm (RecordUpdate h r rm).
Proof.
  unfold RecordUpdate.
  destruct (decide (r ≠ CurrentRound rm)) as [Hr|Hr]; [by constructor|].
  apply dec_stable in Hr.
  destruct (decide (State rm ≠ RoundWaiting)) as [Hs|Hs]; [by constructor|].
  apply dec_stable in Hs.
  destruct (has_submitted h rm) eqn:Hh.
  { apply RU_duplicate; [done..|]. by apply has_submitted_true. }
  unfold received; simpl.
  destruct (decide _) as [Hq|Hq].
  - by apply RU_quorum.
  - rewrite Hs. apply RU_recorded; [done..|lia].
Qed.

Lemma RecordUpdate_ExpectedClients h r rm :
  ExpectedClients (RecordUpdate h r rm).2 = ExpectedClients rm.
Proof. by destruct (RecordUpdate_inv h r rm). Qed.

Lemma RecordUpdate_CurrentRound h r rm :
  CurrentRound (RecordUpdate h r rm).2 = CurrentRound rm.
Proof. by destruct (RecordUpdate_inv h r rm). Qed.

Lemma RecordUpdate_only_true h r rm :
  only_true rm → only_true (RecordUpdate h r rm).2.
Proof.
  intros Hot. destruct (RecordUpdate_inv h r rm); simpl; try done.
  all: intros k v; simpl; rewrite lookup_insert; case_decide; naive_solver.
Qed.

(** A participant the map holds stays in it through [RecordUpdate]. *)
Lemma RecordUpdate_keeps h r rm k :
  ReceivedClients rm !! k = Some true →
  ReceivedClients (RecordUpdate h r rm).2 !! k = Some true.
Proof.
  intros Hk. destruct (RecordUpdate_inv h r rm); simpl; try done.
  all: rewrite lookup_insert; by case_decide.
Qed.

(** With only [true] stored, an accepted call adds one new participant. *)
Lemma size_insert_fresh h rm :
  only_true rm → has_submitted h rm = false →
  size (<[h := true]> (ReceivedClients rm)) = S (size (ReceivedClients rm)).
Proof.
  intros Hot Hh. apply map_size_insert_None.
  unfold has_submitted in Hh.
  destruct (ReceivedClients rm !! h) as [v|] eqn:E; [|done].
  apply Hot in E. by subst.
Qed.

End RecordUpdateFacts.

Section RoundClaims.

Implicit Types (rm : RoundManager) (h : string) (r : Z).

(** C4: a submission whose roundID differs from currentRound, smaller or
    larger, is rejected (accepted = false), whatever the manager's state and
    whoever has submitted before. *)
Theorem RecordUpdate_round_mismatch h r rm :
  r ≠ CurrentRound rm → (RecordUpdate h r rm).1.1 = false.
Proof.
  intros Hr. unfold RecordUpdate. by rewrite decide_True.
Qed.

Lemma RecordUpdate_round_mismatch_witness :
  (RecordUpdate "H1" 1 (NewRoundManager 3)).1.1 = false
  ∧ (RecordUpdate "H1" (-1) (NewRoundManager 3)).1.1 = false.
Proof.
  split; apply RecordUpdate_round_mismatch; simpl; lia.
Defined.

(** C9: a call of RecordUpdate that answers accepted = false leaves the
    manager as it was: round, participant map, state and quorum. *)
Theorem RecordUpdate_rejected_unchanged h r rm :
  (RecordUpdate h r rm).1.1 = false → (RecordUpdate h r rm).2 = rm.
Proof.
  intros Hrej. by destruct (RecordUpdate_inv h r rm).
Qed.

Lemma RecordUpdate_rejected_unchanged_witness :
  (RecordUpdate "H1" 7 (NewRoundManager 3)).2 = NewRoundManager 3.
Proof.
  apply RecordUpdate_rejected_unchanged. reflexivity.
Defined.

(** C6: AdvanceRound adds exactly one to currentRound, leaves no recorded
    participant (receivedCount = 0), sets the state to WAITING and keeps
    quorumSize. The round number is an [int] below the largest one. *)
Theorem AdvanceRound_next_round rm :
  GoInt.in_range (CurrentRound rm) → CurrentRound rm < GoInt.max_int →
  CurrentRound (AdvanceRound rm) = CurrentRound rm + 1
  ∧ ReceivedClients (AdvanceRound rm) = ∅
  ∧ received (AdvanceRound rm) = 0
  ∧ State (AdvanceRound rm) = RoundWaiting
  ∧ ExpectedClients (AdvanceRound rm) = ExpectedClients rm.
Proof.
  intros Hrange Hmax. unfold AdvanceRound, received; simpl.
  rewrite incr_below_max by done. by rewrite map_size_empty.
Qed.

Lemma AdvanceRound_next_round_witness :
  let rm := (RecordUpdate "H1" 0 (NewRoundManager 1)).2 in
  CurrentRound (AdvanceRound rm) = CurrentRound rm + 1
  ∧ ReceivedClients (AdvanceRound rm) = ∅
  ∧ received (AdvanceRound rm) = 0
  ∧ State (AdvanceRound rm) = RoundWaiting
  ∧ ExpectedClients (AdvanceRound rm) = ExpectedClients rm.
Proof.
  apply AdvanceRound_next_round; vm_compute; [split|]; congruence.
Defined.

(** *** Runs of calls *)

Lemma run_calls_app calls1 calls2 rm :
  run_calls (calls1 ++ calls2) rm =
  ((run_calls calls1 rm).1 ++ (run_calls calls2 (run_calls calls1 rm).2).1,
   (run_calls calls2 (run_calls calls1 rm).2).2).
Proof.
  revert rm. induction calls1 as [|[h r] calls1 IH]; intros rm; simpl.
  - by destruct (run_calls calls2 rm).
  - destruct (RecordUpdate h r rm) as [answer rm1]. rewrite IH.
    by destruct (run_calls calls1 rm1).
Qed.

Lemma run_calls_length calls rm :
  length (run_calls calls rm).1 = length calls.
Proof.
  revert rm. induction calls as [|[h r] calls IH]; intros rm; simpl; [done|].
  destruct (RecordUpdate h r rm) as [answer rm1]. specialize (IH rm1).
  destruct (run_calls calls rm1). simpl in *. by rewrite IH.
Qed.

(** Answer [i] of a run is the answer of call [i] on the manager the first
    [i] calls leave behind. *)
Lemma run_calls_lookup calls rm i h r :
  calls !! i = Some (h, r) →
  (run_calls calls rm).1 !! i
  = Some (RecordUpdate h r (run_calls (take i calls) rm).2).1.
Proof.
  revert rm i. induction calls as [|[h0 r0] calls IH]; intros rm i Hi; [done|].
  destruct i as [|i]; simpl in *.
  - inversion Hi; subst.
    destruct (RecordUpdate h r rm) as [answer rm1].
    by destruct (run_calls calls rm1).
  - specialize (IH (RecordUpdate h0 r0 rm).2 i Hi).
    destruct (RecordUpdate h0 r0 rm) as [answer rm1]. simpl in IH.
    destruct (run_calls calls rm1) as [answers rm2].
    destruct (run_calls (take i calls) rm1) as [answers' rm2']. done.
Qed.

Lemma run_calls_keeps calls rm k :
  ReceivedClients rm !! k = Some true →
  ReceivedClients (run_calls calls rm).2 !! k = Some true.
Proof.
  revert rm. induction calls as [|[h r] calls IH]; intros rm Hk; [done|].
  simpl. pose proof (RecordUpdate_keeps h r rm k Hk) as Hk1.
  destruct (RecordUpdate h r rm) as [answer rm1].
  specialize (IH rm1 Hk1). by destruct (run_calls calls rm1).
Qed.

(** A recorded hospital is turned away, whatever round it names. *)
Lemma recorded_rejected h r rm :
  ReceivedClients rm !! h = Some true → (RecordUpdate h r rm).1.1 = false.
Proof.
  intros Hh.
  destruct (RecordUpdate_inv h r rm) as [| | | ? ? Hno | ? ? Hno]; try done.
  all: apply has_submitted_true in Hh; congruence.
Qed.

(** C5: once a hospital is recorded for the round, a further RecordUpdate of
    that hospital is rejected (accepted = false), after any number of other
    RecordUpdate calls in between and for the current round as for any
    other. *)
Theorem RecordUpdate_duplicate_rejected rm calls h r :
  ReceivedClients rm !! h = Some true →
  (RecordUpdate h r (run_calls calls rm).2).1.1 = false.
Proof.
  intros Hh. by apply recorded_rejected, run_calls_keeps.
Qed.

Lemma RecordUpdate_duplicate_rejected_witness :
  let rm := (RecordUpdate "H1" 0 (NewRoundManager 3)).2 in
  (RecordUpdate "H1" 0 (run_calls [("H2", 0)] rm).2).1.1 = false.
Proof.
  apply RecordUpdate_duplicate_rejected. reflexivity.
Defined.

(** An accepted call records its hospital, so the theorem above applies to
    every later call of the same hospital in the run. *)
Lemma RecordUpdate_accepted_recorded h r rm :
  (RecordUpdate h r rm).1.1 = true →
  ReceivedClients (RecordUpdate h r rm).2 !! h = Some true.
Proof.
  intros Hacc. destruct (RecordUpdate_inv h r rm); simpl in *; try done.
  all: by rewrite lookup_insert_eq.
Qed.

Lemma second_submission_rejected rm pre h r mid r' :
  (RecordUpdate h r (run_calls pre rm).2).1.1 = true →
  (RecordUpdate h r' (run_calls (pre ++ (h, r) :: mid) rm).2).1.1 = false.
Proof.
  intros Hacc. apply RecordUpdate_accepted_recorded in Hacc.
  rewrite run_calls_app. simpl.
  destruct (RecordUpdate h r (run_calls pre rm).2) as [answer rm1].
  simpl in Hacc. apply recorded_rejected.
  pose proof (run_calls_keeps mid rm1 h Hacc) as Hkept.
  by destruct (run_calls mid rm1).
Qed.

End RoundClaims.

Section QuorumClaims.

Implicit Types (rm : RoundManager) (h : string) (r : Z).

Lemma RecordUpdate_open_below_quorum h r rm :
  open_below_quorum rm → open_below_quorum (RecordUpdate h r rm).2.
Proof.
  unfold open_below_quorum, received. intros Hinv.
  by destruct (RecordUpdate_inv h r rm); simpl.
Qed.

Lemma AdvanceRound_open_below_quorum rm :
  1 <= ExpectedClients rm → open_below_quorum (AdvanceRound rm).
Proof.
  unfold open_below_quorum, received, AdvanceRound; simpl. intros Hq _.
  rewrite map_size_empty. lia.
Qed.

Lemma apply_calls_invariant cs rm :
  1 <= ExpectedClients rm → open_below_quorum rm →
  ExpectedClients (apply_calls cs rm) = ExpectedClients rm
  ∧ open_below_quorum (apply_calls cs rm).
Proof.
  revert rm. induction cs as [|c cs IH]; intros rm Hq Hinv; [done|].
  unfold apply_calls in *; simpl.
  assert (ExpectedClients (apply_call rm c) = ExpectedClients rm) as Hsame.
  { destruct c; simpl; [apply RecordUpdate_ExpectedClients|done]. }
  rewrite <- Hsame. apply IH; [lia|].
  destruct c; simpl.
  - by apply RecordUpdate_open_below_quorum.
  - by apply AdvanceRound_open_below_quorum.
Qed.

(** C10: for a manager made with quorumSize at least 1, after any sequence
    of RecordUpdate and AdvanceRound calls, a state that is WAITING has fewer
    recorded participants than quorumSize. *)
Theorem waiting_below_quorum quorum cs :
  1 <= quorum →
  State (apply_calls cs (NewRoundManager quorum)) = RoundWaiting →
  received (apply_calls cs (NewRoundManager quorum)) < quorum.
Proof.
  intros Hq Hwait.
  destruct (apply_calls_invariant cs (NewRoundManager quorum)) as [Hsame Hinv].
  - done.
  - intros _. unfold received; simpl. rewrite map_size_empty. lia.
  - rewrite <- Hsame at 2. by apply Hinv.
Qed.

Lemma waiting_below_quorum_witness :
  received
    (apply_calls [CallRecordUpdate "H1" 0; CallRecordUpdate "H2" 0;
                  CallRecordUpdate "H3" 0; CallAdvanceRound;
                  CallRecordUpdate "H2" 1]
       (NewRoundManager 3)) < 3.
Proof.
  apply waiting_below_quorum; [lia | reflexivity].
Defined.

(** *** One round *)

Lemma run_calls_ExpectedClients calls rm :
  ExpectedClients (run_calls calls rm).2 = ExpectedClients rm.
Proof.
  revert rm. induction calls as [|[h r] calls IH]; intros rm; [done|].
  simpl. pose proof (RecordUpdate_ExpectedClients h r rm) as Hsame.
  destruct (RecordUpdate h r rm) as [answer rm1].
  specialize (IH rm1). destruct (run_calls calls rm1). simpl in *. congruence.
Qed.

Lemma run_calls_invariant calls rm :
  only_true rm → open_below_quorum rm →
  only_true (run_calls calls rm).2 ∧ open_below_quorum (run_calls calls rm).2.
Proof.
  revert rm. induction calls as [|[h r] calls IH]; intros rm Hot Hinv; [done|].
  simpl. pose proof (RecordUpdate_only_true h r rm Hot) as Hot1.
  pose proof (RecordUpdate_open_below_quorum h r rm Hinv) as Hinv1.
  destruct (RecordUpdate h r rm) as [answer rm1].
  specialize (IH rm1 Hot1 Hinv1). by destruct (run_calls calls rm1).
Qed.

(** A manager that is not WAITING turns every call away. *)
Lemma closed_rejects h r rm :
  State rm ≠ RoundWaiting → RecordUpdate h r rm = ((false, false), rm).
Proof.
  intros Hclosed. by destruct (RecordUpdate_inv h r rm).
Qed.

Lemma run_calls_closed calls rm :
  State rm ≠ RoundWaiting → (run_calls calls rm).2 = rm.
Proof.
  intros Hclosed. induction calls as [|[h r] calls IH]; [done|].
  simpl. rewrite closed_rejects by done. by destruct (run_calls calls rm).
Qed.

(** The call that meets the quorum is an accepted one that finds
    quorumSize - 1 participants and leaves quorumSize, and it closes the
    round. *)
Lemma quorum_call h r rm :
  1 <= ExpectedClients rm → only_true rm → open_below_quorum rm →
  ((RecordUpdate h r rm).1.2 = true ↔
     (RecordUpdate h r rm).1.1 = true
     ∧ received rm = ExpectedClients rm - 1
     ∧ received (RecordUpdate h r rm).2 = ExpectedClients rm)
  ∧ ((RecordUpdate h r rm).1.2 = true →
     State (RecordUpdate h r rm).2 = RoundAggregating).
Proof.
  unfold open_below_quorum, received. intros Hq Hot Hinv.
  destruct (RecordUpdate_inv h r rm) as
    [| | | ? Hwait Hno Hsize | ? Hwait Hno Hsize]; simpl.
  1-3: split; [split|]; intros Hyes; try done; by destruct Hyes.
  - rewrite size_insert_fresh in * by done. specialize (Hinv Hwait).
    split; [split|]; intros; try done. lia.
  - rewrite size_insert_fresh in * by done.
    split; [split|]; intros; try done. lia.
Qed.

(** After the quorum call every answer of the run is a rejection. *)
Lemma after_quorum_rejected calls rm i h r j a :
  calls !! i = Some (h, r) →
  State (RecordUpdate h r (run_calls (take i calls) rm).2).2 ≠ RoundWaiting →
  (i < j)%nat → (run_calls calls rm).1 !! j = Some a → a = (false, false).
Proof.
  intros Hi Hclosed Hij Hj.
  assert (is_Some (calls !! j)) as [[hj rj] Hcj].
  { apply lookup_lt_is_Some. rewrite <- (run_calls_length calls rm).
    by eapply lookup_lt_Some. }
  rewrite (run_calls_lookup _ _ _ _ _ Hcj) in Hj. inversion Hj as [Ha].
  assert (take j calls
          = take i calls ++ (h, r) :: drop (S i) (take j calls)) as Hsplit.
  { rewrite <- (take_drop (S i) (take j calls)) at 1.
    rewrite take_take, Nat.min_l by lia.
    by rewrite (take_S_r _ _ _ Hi), <- app_assoc. }
  rewrite Hsplit, run_calls_app. simpl.
  destruct (RecordUpdate h r (run_calls (take i calls) rm).2) as [ans rm1].
  simpl in Hclosed.
  pose proof (run_calls_closed (drop (S i) (take j calls)) rm1 Hclosed) as Hst.
  destruct (run_calls (drop (S i) (take j calls)) rm1) as [answers rm2].
  simpl in *. subst rm2. by rewrite closed_rejects.
Qed.

(** C1: in a round of quorumSize at least 1 and any sequence of RecordUpdate
    calls from its start, a call answers quorumReached = true exactly when it
    is accepted and brings the count of recorded participants from
    quorumSize - 1 to quorumSize; that call sets the state to AGGREGATING,
    every call after it is answered accepted = false, and no other call of
    the sequence answers quorumReached = true. *)
Theorem quorum_reached_once rm calls i h r :
  1 <= ExpectedClients rm → round_start rm →
  calls !! i = Some (h, r) →
  let before := (run_calls (take i calls) rm).2 in
  let answer := (RecordUpdate h r before).1 in
  let after := (RecordUpdate h r before).2 in
  (run_calls calls rm).1 !! i = Some answer
  ∧ (answer.2 = true ↔
       answer.1 = true
       ∧ received before = ExpectedClients rm - 1
       ∧ received after = ExpectedClients rm)
  ∧ (answer.2 = true →
       State after = RoundAggregating
       ∧ (∀ j a, (i < j)%nat → (run_calls calls rm).1 !! j = Some a →
                 a.1 = false)
       ∧ (∀ j a, j ≠ i → (run_calls calls rm).1 !! j = Some a →
                 a.2 = false)).
Proof.
  intros Hq [Hempty Hwait] Hi before answer after.
  assert (only_true rm) as Hot.
  { intros k v. by rewrite Hempty, lookup_empty. }
  assert (open_below_quorum rm) as Hinv.
  { intros _. unfold received. rewrite Hempty, map_size_empty. lia. }
  split; [by apply run_calls_lookup|].
  destruct (run_calls_invariant (take i calls) rm Hot Hinv) as [Hot1 Hinv1].
  pose proof (run_calls_ExpectedClients (take i calls) rm) as Hsame.
  fold before in Hot1, Hinv1, Hsame.
  destruct (quorum_call h r before) as [Hiff Hagg]; [lia|done..|].
  rewrite Hsame in Hiff. split; [done|].
  intros Hmet. specialize (Hagg Hmet). split; [done|].
  assert (∀ j a, (i < j)%nat → (run_calls calls rm).1 !! j = Some a →
                 a = (false, false)) as Hlater.
  { intros j a. apply (after_quorum_rejected calls rm i h r); [done|].
    change (State after ≠ RoundWaiting). unfold after. by rewrite Hagg. }
  split; [intros j a Hij Hj; by rewrite (Hlater j a Hij Hj)|].
  intros j a Hne Hj.
  destruct (decide (i < j)%nat) as [Hij|Hij];
    [by rewrite (Hlater j a Hij Hj)|].
  assert (j < i)%nat as Hji by lia.
  destruct a as [acc met]; simpl. destruct met; [exfalso|done].
  assert (is_Some (calls !! j)) as [[hj rj] Hcj].
  { apply lookup_lt_is_Some. apply lookup_lt_Some in Hi. lia. }
  pose proof (run_calls_lookup calls rm j hj rj Hcj) as Hjans.
  rewrite Hj in Hjans. inversion Hjans as [Hjeq].
  destruct (run_calls_invariant (take j calls) rm Hot Hinv) as [Hotj Hinvj].
  pose proof (run_calls_ExpectedClients (take j calls) rm) as Hsamej.
  destruct (quorum_call hj rj (run_calls (take j calls) rm).2) as [_ Haggj];
    [lia|done..|].
  rewrite <- Hjeq in Haggj. specialize (Haggj eq_refl).
  pose proof (run_calls_lookup calls rm i h r Hi) as Hians.
  fold before answer in Hians.
  assert (answer = (false, false)) as Hrej.
  { apply (after_quorum_rejected calls rm j hj rj i); try done.
    congruence. }
  rewrite Hrej in Hmet. done.
Qed.

Lemma quorum_reached_once_witness :
  let rm := NewRoundManager 3 in
  let calls := [("H1", 0); ("H2", 0); ("H3", 0); ("H4", 0)] in
  let before := (run_calls (take 2 calls) rm).2 in
  let answer := (RecordUpdate "H3" 0 before).1 in
  let after := (RecordUpdate "H3" 0 before).2 in
  (run_calls calls rm).1 !! 2%nat = Some answer
  ∧ (answer.2 = true ↔
       answer.1 = true
       ∧ received before = ExpectedClients rm - 1
       ∧ received after = ExpectedClients rm)
  ∧ (answer.2 = true →
       State after = RoundAggregating
       ∧ (∀ j a, (2 < j)%nat → (run_calls calls rm).1 !! j = Some a →
                 a.1 = false)
       ∧ (∀ j a, j ≠ 2%nat → (run_calls calls rm).1 !! j = Some a →
                 a.2 = false)).
Proof.
  apply (quorum_reached_once (NewRoundManager 3)
           [("H1", 0); ("H2", 0); ("H3", 0); ("H4", 0)] 2 "H3" 0).
  - simpl. lia.
  - split; reflexivity.
  - reflexivity.
Defined.

End QuorumClaims.

(** ** FedAvg *)

Section SummingLoops.

Implicit Types (sums ws pre : list float) (packets : list UpdatePacket).

Lemma add_onto_length sums ws : length (add_onto sums ws) = length sums.
Proof.
  revert ws. induction sums as [|x sums IH]; intros [|w ws]; simpl; auto.
Qed.

Lemma add_onto_lookup sums ws j :
  add_onto sums ws !! j
  = (λ x, match ws !! j with
          | Some w => PrimFloat.add x w
          | None => x
          end) <$> sums !! j.
Proof.
  revert ws j. induction sums as [|x sums IH]; intros [|w ws] j; simpl.
  - done.
  - done.
  - by destruct ((x :: sums) !! j).
  - destruct j as [|j]; simpl; [done|]. apply IH.
Qed.

(** The inner loop runs through when the vector fits into the sums. *)
Lemma range_add_fits pre sums ws :
  (length ws <= length sums)%nat →
  range_add (length pre) ws (pre ++ sums) = Some (pre ++ add_onto sums ws).
Proof.
  revert pre sums. induction ws as [|w ws IH]; intros pre sums Hlen; simpl.
  - by destruct sums.
  - destruct sums as [|x sums]; simpl in Hlen; [lia|].
    unfold add_at. rewrite list_lookup_middle by done.
    rewrite insert_app_r_alt, Nat.sub_diag by done. simpl.
    specialize (IH (pre ++ [PrimFloat.add x w]) sums).
    rewrite length_app, <- !app_assoc, Nat.add_1_r in IH. simpl in IH.
    apply IH. lia.
Qed.

(** It panics when the vector is longer than the sums. *)
Lemma range_add_overflows pre sums ws :
  (length sums < length ws)%nat →
  range_add (length pre) ws (pre ++ sums) = None.
Proof.
  revert pre sums. induction ws as [|w ws IH]; intros pre sums Hlen; simpl.
  - simpl in Hlen. lia.
  - unfold add_at. destruct sums as [|x sums]; simpl in Hlen.
    + rewrite app_nil_r, lookup_ge_None_2; done.
    + rewrite list_lookup_middle by done.
      rewrite insert_app_r_alt, Nat.sub_diag by done. simpl.
      specialize (IH (pre ++ [PrimFloat.add x w]) sums).
      rewrite length_app, <- !app_assoc, Nat.add_1_r in IH. simpl in IH.
      apply IH. lia.
Qed.

Lemma range_add_0 sums ws :
  range_add 0 ws sums
  = if decide (length ws <= length sums)%nat
    then Some (add_onto sums ws) else None.
Proof.
  case_decide.
  - by apply (range_add_fits []).
  - apply (range_add_overflows []). lia.
Qed.

(** The outer loop: every vector is added onto the sums, unless one of them
    is longer than the sums. *)
Lemma sum_packets_fits packets sums :
  Forall (λ p, (length (Weights p) <= length sums)%nat) packets →
  sum_packets packets sums
  = Some (fold_left add_onto (map Weights packets) sums).
Proof.
  revert sums. induction packets as [|p packets IH]; intros sums Hall; [done|].
  inversion Hall as [|? ? Hp Hrest]; subst. simpl.
  rewrite range_add_0, decide_True by done. apply IH.
  by rewrite add_onto_length.
Qed.

Lemma sum_packets_overflows packets sums :
  Exists (λ p, (length sums < length (Weights p))%nat) packets →
  sum_packets packets sums = None.
Proof.
  revert sums. induction packets as [|p packets IH]; intros sums Hex.
  - inversion Hex.
  - simpl. rewrite range_add_0. case_decide as Hp; [|done].
    apply IH. rewrite add_onto_length.
    inversion Hex as [? ? Hlong|]; subst; [lia|done].
Qed.

Lemma fold_add_onto_length (vs : list (list float)) sums :
  length (fold_left add_onto vs sums) = length sums.
Proof.
  revert sums. induction vs as [|v vs IH]; intros sums; simpl; [done|].
  by rewrite IH, add_onto_length.
Qed.

(** Entry [j] of the sums after the outer loop: the entries [j] of the
    vectors that have one, added in buffer order. *)
Lemma fold_add_onto_lookup (vs : list (list float)) sums j :
  fold_left add_onto vs sums !! j
  = (λ x, fold_left (λ acc v, match v !! j with
                              | Some w => PrimFloat.add acc w
                              | None => acc
                              end) vs x) <$> sums !! j.
Proof.
  revert sums. induction vs as [|v vs IH]; intros sums; simpl.
  - by destruct (sums !! j).
  - rewrite IH, add_onto_lookup. by destruct (sums !! j).
Qed.

(** With entry [j] in every vector this is the sum of column [j]. *)
Lemma fold_column (vs : list (list float)) j x :
  Forall (λ v, (j < length v)%nat) vs →
  fold_left (λ acc v, match v !! j with
                      | Some w => PrimFloat.add acc w
                      | None => acc
                      end) vs x
  = fold_left PrimFloat.add (column j vs) x.
Proof.
  revert x. induction vs as [|v vs IH]; intros x Hall; [done|].
  inversion Hall as [|? ? Hj Hrest]; subst. simpl.
  rewrite nth_lookup. destruct (lookup_lt_is_Some_2 v j Hj) as [w Hw].
  rewrite Hw. simpl. by apply IH.
Qed.

(** The averaging loop never leaves the new slice when both slices have the
    same length. *)
Lemma range_div_fits pre sums news numUpdates :
  length sums = length news →
  range_div (length pre) sums numUpdates (pre ++ news)
  = Some (pre ++ map (λ sum, PrimFloat.div sum numUpdates) sums).
Proof.
  revert pre news. induction sums as [|x sums IH]; intros pre news Hlen.
  - destruct news; [done|discriminate].
  - destruct news as [|y news]; [discriminate|]. simpl.
    unfold div_at. rewrite list_lookup_middle by done.
    rewrite insert_app_r_alt, Nat.sub_diag by done. simpl.
    specialize (IH (pre ++ [PrimFloat.div x numUpdates]) news).
    rewrite length_app, <- !app_assoc, Nat.add_1_r in IH. simpl in IH.
    apply IH. simpl in Hlen. lia.
Qed.

(** [fedAvg] in closed form when no vector is longer than the first: entry
    [j] of the result averages the entries [j] that are there over all
    updates. *)
Lemma fedAvg_within_first first rest :
  within_first (first :: rest) →
  fedAvg (first :: rest)
  = Some (map (λ sum, PrimFloat.div sum
                        (float64_of_len (length (first :: rest))))
            (fold_left add_onto (map Weights (first :: rest))
               (make_floats (length (Weights first))))).
Proof.
  intros Hall. unfold fedAvg, within_first in *.
  rewrite sum_packets_fits
    by (unfold make_floats; by rewrite length_replicate).
  apply (range_div_fits []).
  unfold make_floats. by rewrite fold_add_onto_length, !length_replicate.
Qed.

(** [fedAvg] panics when some vector is longer than the first. *)
Lemma fedAvg_longer_than_first packets :
  longer_than_first packets → fedAvg packets = None.
Proof.
  destruct packets as [|first rest]; [done|]. intros Hex.
  unfold fedAvg, longer_than_first in *.
  rewrite sum_packets_overflows; [done|].
  unfold make_floats. by rewrite length_replicate.
Qed.

Lemma same_length_within_first packets :
  packets ≠ [] → same_length (map Weights packets) → within_first packets.
Proof.
  destruct packets as [|first rest]; [done|]. intros _ [n Hall].
  unfold within_first. rewrite Forall_fmap in Hall.
  inversion Hall as [|? ? Hfirst Hrest]; subst.
  eapply Forall_impl; [exact Hall|]. intros p Hp. simpl in *. lia.
Qed.

(** On vectors of one length the closed form is the mean. *)
Lemma averaged_sums_mean (vs : list (list float)) first rest numUpdates :
  vs = first :: rest → same_length vs →
  map (λ sum, PrimFloat.div sum numUpdates)
    (fold_left add_onto vs (make_floats (length first)))
  = map (λ i, PrimFloat.div
                (fold_left PrimFloat.add (column i vs) PrimFloat.zero)
                numUpdates)
      (seq 0 (length first)).
Proof.
  intros Hvs [n Hall]. apply list_eq. intros j.
  rewrite !list_lookup_fmap, fold_add_onto_lookup. unfold make_floats.
  destruct (decide (j < length first)%nat) as [Hj|Hj].
  - rewrite lookup_replicate_2, lookup_seq_lt by done. simpl.
    rewrite fold_column; [done|].
    eapply Forall_impl; [exact Hall|]. simpl. intros v Hv.
    rewrite Hvs in Hall. inversion Hall; subst. lia.
  - rewrite lookup_seq_ge by lia.
    assert (replicate (length first) PrimFloat.zero !! j = None) as ->
      by (apply lookup_replicate_None; lia).
    done.
Qed.

End SummingLoops.

Section FedAvgClaims.

(** The loops on a non-empty buffer of vectors of one length. *)
Lemma fedAvg_same_length (updates : list UpdatePacket) :
  updates ≠ [] → same_length (map Weights updates) →
  fedAvg updates = Some (mean (map Weights updates)).
Proof.
  intros Hne Hsame.
  pose proof (same_length_within_first updates Hne Hsame) as Hwithin.
  destruct updates as [|first rest]; [done|].
  rewrite fedAvg_within_first by done. f_equal.
  unfold mean. cbn [map]. rewrite <- (length_map Weights (first :: rest)).
  by apply (averaged_sums_mean _ (Weights first) (map Weights rest)).
Qed.

(** C7: for a non-empty buffer whose weight vectors all have one length, the
    summing and averaging loops of aggregateUpdates end without a panic and
    yield, per dimension, the unweighted arithmetic mean of the buffered
    vectors, in float64 arithmetic; aggregateUpdates, which runs the loops
    once three updates are buffered, stores that mean as the global
    weights. *)
Theorem fedAvg_is_mean (updates : list UpdatePacket) :
  updates ≠ [] → same_length (map Weights updates) →
  fedAvg updates = Some (mean (map Weights updates))
  ∧ ∀ s, receivedUpdates s = updates → (3 <= length updates)%nat →
         globalWeights (aggregateUpdates s).2
         = Some (mean (map Weights updates)).
Proof.
  intros Hne Hsame.
  pose proof (fedAvg_same_length updates Hne Hsame) as Hmean.
  split; [done|]. intros s Hs Hlen. unfold aggregateUpdates.
  rewrite Hs, decide_False by lia. by rewrite Hmean.
Qed.

Lemma fedAvg_is_mean_witness :
  fedAvg (simulatorPackets 0) = Some [20%float; 40%float]
  ∧ ∀ s, receivedUpdates s = simulatorPackets 0 →
         (3 <= length (simulatorPackets 0))%nat →
         globalWeights (aggregateUpdates s).2
         = Some [20%float; 40%float].
Proof.
  apply (fedAvg_is_mean (simulatorPackets 0)).
  - vm_compute. discriminate.
  - exists 2%nat. vm_compute. repeat constructor.
Defined.

(** The vectors [10,20], [20,40] and [30,60] average to [20,40]. *)
Example mean_of_simulator_vectors :
  mean [[10%float; 20%float]; [20%float; 40%float]; [30%float; 60%float]]
  = [20%float; 40%float].
Proof. reflexivity. Qed.

(** Below three buffered updates aggregateUpdates returns at once and stores
    nothing. *)
Lemma aggregateUpdates_below_three s :
  (length (receivedUpdates s) < 3)%nat → aggregateUpdates s = (AggSkipped, s).
Proof.
  intros Hlen. unfold aggregateUpdates. by rewrite decide_True.
Qed.

End FedAvgClaims.

(** ** aggregateUpdates and the stored model *)

Section AggregateClaims.

Implicit Types (s : Server) (t : Run).

(** With at least three buffered updates, none longer than the first, the
    aggregation stores a new model, counts the version up, empties the buffer
    and opens the next round. *)
Lemma aggregateUpdates_publishes s :
  (3 <= length (receivedUpdates s))%nat → within_first (receivedUpdates s) →
  ∃ newWeights,
    fedAvg (receivedUpdates s) = Some newWeights
    ∧ aggregateUpdates s
      = (AggPublished {| weights := newWeights;
                         version := GoInt.incr (currentVersion s) |},
         {| receivedUpdates := [];
            globalWeights := Some newWeights;
            currentVersion := GoInt.incr (currentVersion s);
            roundManager := AdvanceRound (roundManager s) |}).
Proof.
  intros Hlen Hwithin. unfold aggregateUpdates.
  rewrite decide_False by lia.
  destruct (receivedUpdates s) as [|first rest] eqn:E; [done|].
  rewrite fedAvg_within_first by done. eauto.
Qed.

(** C3: when some buffered weight vector is longer than the first one,
    aggregateUpdates stores nothing: it returns early on fewer than three
    updates and panics in the summing loop otherwise, and the stored global
    weights, the version and the round manager are as before. *)
Theorem longer_vector_not_aggregated s :
  longer_than_first (receivedUpdates s) →
  (aggregateUpdates s).1
  = (if decide (length (receivedUpdates s) < 3)%nat
     then AggSkipped else AggPanicked)
  ∧ globalWeights (aggregateUpdates s).2 = globalWeights s
  ∧ currentVersion (aggregateUpdates s).2 = currentVersion s
  ∧ roundManager (aggregateUpdates s).2 = roundManager s
  ∧ receivedUpdates (aggregateUpdates s).2 = receivedUpdates s.
Proof.
  intros Hlong. unfold aggregateUpdates.
  case_decide; [done|]. by rewrite fedAvg_longer_than_first.
Qed.

Lemma longer_vector_not_aggregated_witness :
  let s := {| receivedUpdates := shortFirstPackets;
              globalWeights := None;
              currentVersion := 0;
              roundManager := NewRoundManager 3 |} in
  (aggregateUpdates s).1 = AggPanicked
  ∧ globalWeights (aggregateUpdates s).2 = globalWeights s
  ∧ currentVersion (aggregateUpdates s).2 = currentVersion s
  ∧ roundManager (aggregateUpdates s).2 = roundManager s
  ∧ receivedUpdates (aggregateUpdates s).2 = receivedUpdates s.
Proof.
  apply (longer_vector_not_aggregated
           {| receivedUpdates := shortFirstPackets;
              globalWeights := None;
              currentVersion := 0;
              roundManager := NewRoundManager 3 |}).
  vm_compute. apply Exists_cons_tl, Exists_cons_hd. lia.
Defined.

(** Vectors of lengths 2, 1 and 2, submitted and accepted in round 0, are
    aggregated all the same: a model is stored, the version moves and the
    next round opens. *)
Lemma uneven_batch_is_aggregated :
  let s := server (run (map OpSubmit unevenPackets)) in
  receivedUpdates s = unevenPackets
  ∧ ¬ same_length (map Weights (receivedUpdates s))
  ∧ globalWeights s = None
  ∧ globalWeights (aggregateUpdates s).2
    = Some [20%float; PrimFloat.div 80 3]
  ∧ currentVersion s = 0
  ∧ currentVersion (aggregateUpdates s).2 = 1
  ∧ CurrentRound (roundManager s) = 0
  ∧ CurrentRound (roundManager (aggregateUpdates s).2) = 1
  ∧ globalWeights (aggregateUpdates s).2 ≠ globalWeights s
  ∧ currentVersion (aggregateUpdates s).2 ≠ currentVersion s
  ∧ roundManager (aggregateUpdates s).2 ≠ roundManager s.
Proof.
  split; [reflexivity|]. split.
  { intros [n Hall]. vm_compute in Hall.
    inversion Hall as [|? ? H1 Hrest]; subst.
    inversion Hrest as [|? ? H2 _]; subst. discriminate. }
  repeat split; try (vm_compute; reflexivity);
    intros Heq; vm_compute in Heq; discriminate.
Qed.

(** *** Runs *)

Lemma run_snoc ops op : run (ops ++ [op]) = step (run ops) op.
Proof. unfold run. by rewrite fold_left_app. Qed.

Lemma handleSubmitUpdate_model packet s :
  globalWeights (handleSubmitUpdate packet s).2 = globalWeights s
  ∧ currentVersion (handleSubmitUpdate packet s).2 = currentVersion s.
Proof.
  unfold handleSubmitUpdate. case_decide; [done|].
  destruct (RecordUpdate _ _ _) as [[[] quorumMet] rm1]; done.
Qed.

(** What an aggregation leaves in the store, by the way it ends. *)
Lemma aggregateUpdates_model s :
  match (aggregateUpdates s).1 with
  | AggPublished snapshot =>
      globalWeights (aggregateUpdates s).2 = Some (weights snapshot)
      ∧ currentVersion (aggregateUpdates s).2 = version snapshot
      ∧ version snapshot = GoInt.incr (currentVersion s)
  | _ =>
      globalWeights (aggregateUpdates s).2 = globalWeights s
      ∧ currentVersion (aggregateUpdates s).2 = currentVersion s
  end.
Proof.
  unfold aggregateUpdates. case_decide; [done|].
  by destruct (fedAvg (receivedUpdates s)).
Qed.

Lemma incr_wrap z : GoInt.incr (GoInt.wrap z) = GoInt.wrap (z + 1).
Proof.
  unfold GoInt.incr, GoInt.wrap. f_equal.
  replace ((z + 2 ^ 63) `mod` 2 ^ 64 - 2 ^ 63 + 1 + 2 ^ 63)
    with ((z + 2 ^ 63) `mod` 2 ^ 64 + 1) by lia.
  rewrite Z.add_mod_idemp_l by lia. f_equal. lia.
Qed.

(** Through every run: the store is the latest stored snapshot, and stored
    snapshot number [k] carries version [k], counted as an [int]. *)
Lemma run_invariant ops :
  store_is_latest (run ops)
  ∧ currentVersion (server (run ops))
    = GoInt.wrap (Z.of_nat (length (published (run ops))))
  ∧ map version (published (run ops))
    = map (λ k, GoInt.wrap (Z.of_nat k))
        (seq 1 (length (published (run ops)))).
Proof.
  induction ops as [|op ops IH] using rev_ind; [done|].
  rewrite run_snoc. destruct IH as (Hstore & Hversion & Hlog).
  unfold step. destruct (crashed (run ops)); [done|].
  destruct op as [packet|].
  - destruct (handleSubmitUpdate_model packet (server (run ops))) as [Hw Hv].
    unfold store_is_latest in *. simpl. rewrite Hw, Hv. done.
  - pose proof (aggregateUpdates_model (server (run ops))) as Hmodel.
    destruct (aggregateUpdates (server (run ops))) as [[| |snapshot] s1];
      simpl in Hmodel.
    1-2: destruct Hmodel as [Hw Hv]; unfold store_is_latest in *; simpl;
         rewrite Hw, Hv; done.
    destruct Hmodel as (Hw & Hv & Hnew).
    unfold store_is_latest. simpl. rewrite last_snoc.
    assert (version snapshot
            = GoInt.wrap (Z.of_nat (S (length (published (run ops))))))
      as Hk.
    { rewrite Hnew, Hversion, incr_wrap. f_equal. lia. }
    repeat split; try done.
    + rewrite Hv, Hk, length_app. simpl. do 2 f_equal. lia.
    + rewrite map_app, length_app, Hlog. simpl.
      rewrite Nat.add_1_r, seq_S, map_app. simpl. by rewrite Hk.
Qed.

(** C2: the version the store holds is the number of successful
    aggregations so far, and the snapshots stored carry the versions 1, 2,
    3, ... in order: 1 after the first publish, 2 after the second, one more
    per publish. The count of publishes is an [int]. *)
Theorem version_counts_publishes ops :
  Z.of_nat (length (published (run ops))) <= GoInt.max_int →
  currentVersion (server (run ops))
  = Z.of_nat (length (published (run ops)))
  ∧ map version (published (run ops))
    = map Z.of_nat (seq 1 (length (published (run ops)))).
Proof.
  intros Hmax. destruct (run_invariant ops) as (_ & Hversion & Hlog).
  assert (∀ k : nat, (k <= length (published (run ops)))%nat →
                     GoInt.wrap (Z.of_nat k) = Z.of_nat k) as Hwrap.
  { intros k Hk. apply wrap_in_range.
    unfold GoInt.in_range, GoInt.min_int, GoInt.max_int in *. lia. }
  split; [by rewrite Hversion, Hwrap|].
  rewrite Hlog. apply map_ext_in. intros k Hk. apply Hwrap.
  apply in_seq in Hk. lia.
Qed.

Lemma version_counts_publishes_witness :
  let ops := simulatorRound 0 ++ simulatorRound 1 in
  currentVersion (server (run ops)) = 2
  ∧ map version (published (run ops)) = [1; 2].
Proof.
  apply (version_counts_publishes (simulatorRound 0 ++ simulatorRound 1)).
  vm_compute. discriminate.
Defined.

(** The first publish of the simulator's round 0 stores version 1, not 0. *)
Lemma first_publish_is_version_1 :
  map version (published (run (simulatorRound 0))) = [1]
  ∧ handleGetGlobalModel (server (run (simulatorRound 0)))
    = ModelOK {| weights := [20%float; 40%float]; version := 1 |}
  ∧ currentVersion (server (run (simulatorRound 0))) ≠ 0.
Proof.
  repeat split; try (vm_compute; reflexivity).
  intros Heq. vm_compute in Heq. discriminate.
Qed.

(** C8: in every run the read of the global model answers not-found exactly
    when no aggregation has stored a snapshot yet, and otherwise answers the
    snapshot the latest successful aggregation stored, weights and
    version. *)
Theorem read_returns_latest ops :
  handleGetGlobalModel (server (run ops))
  = match last (published (run ops)) with
    | None => ModelNotFound
    | Some snapshot => ModelOK snapshot
    end
  ∧ (handleGetGlobalModel (server (run ops)) = ModelNotFound
     ↔ published (run ops) = []).
Proof.
  destruct (run_invariant ops) as (Hstore & _ & _).
  unfold store_is_latest, handleGetGlobalModel in *.
  destruct (last (published (run ops))) as [[ws v]|] eqn:Hlast.
  - destruct Hstore as [-> ->]. simpl. split; [done|].
    split; [done|]. intros Hnil. by rewrite Hnil in Hlast.
  - rewrite Hstore. split; [done|]. split; [|done].
    intros _. by apply last_None.
Qed.

End AggregateClaims.

(** ** Boundary cases and the simulator's scenario *)

Section Scenarios.

(** At the largest [int] the round counter wraps instead of growing. *)
Example AdvanceRound_at_max_int :
  CurrentRound
    (AdvanceRound {| CurrentRound := GoInt.max_int;
                     ExpectedClients := 3;
                     ReceivedClients := ∅;
                     State := RoundAggregating |})
  = GoInt.min_int.
Proof. reflexivity. Qed.

(** A manager made with quorum 0 closes the round on its first accepted
    call, which finds no participant recorded. *)
Example zero_quorum_first_call :
  (RecordUpdate "H1" 0 (NewRoundManager 0)).1 = (true, true)
  ∧ received (NewRoundManager 0) = 0
  ∧ received (RecordUpdate "H1" 0 (NewRoundManager 0)).2 = 1.
Proof. repeat split; reflexivity. Qed.

(** Quorum 3 and the simulator's round 0: the third submission meets the
    quorum, the aggregation stores [20,40], the buffer is empty again and
    round 1 is open with nobody recorded. *)
Example simulator_round_0 :
  let submitted := run (map OpSubmit (simulatorPackets 0)) in
  let done := run (simulatorRound 0) in
  (run_calls [("H1", 0); ("H2", 0); ("H3", 0)] (NewRoundManager 3)).1
  = [(true, false); (true, false); (true, true)]
  ∧ State (roundManager (server submitted)) = RoundAggregating
  ∧ handleGetGlobalModel (server submitted) = ModelNotFound
  ∧ globalWeights (server done) = Some [20%float; 40%float]
  ∧ handleUpdatesCount (server done) = 0
  ∧ Status (roundManager (server done)) = (1, 3, 0, RoundWaiting)
  ∧ crashed done = false.
Proof. repeat split; vm_compute; reflexivity. Qed.

End Scenarios.

(** * Further properties of the round manager *)

Import Inv.

Section RoundManagerMore.

Implicit Types (rm : RoundManager) (h : string) (r : Z).

Lemma has_submitted_false h rm :
  only_true rm → has_submitted h rm = false →
  ReceivedClients rm !! h = None.
Proof.
  unfold has_submitted. intros Hot Hh.
  destruct (ReceivedClients rm !! h) as [v|] eqn:E; [|done].
  apply Hot in E. by subst.
Qed.

(** X1: a call is accepted exactly when it names the current round, the
    round is WAITING and the hospital is not yet recorded; an accepted call
    records that hospital and leaves every other entry of the map, the round
    number and the quorum as they were. *)
Theorem RecordUpdate_accepted_iff h r rm :
  ((RecordUpdate h r rm).1.1 = true
   ↔ r = CurrentRound rm ∧ State rm = RoundWaiting
     ∧ has_submitted h rm = false)
  ∧ ((RecordUpdate h r rm).1.1 = true →
     ReceivedClients (RecordUpdate h r rm).2
     = <[h := true]> (ReceivedClients rm)
     ∧ (∀ k, k ≠ h → ReceivedClients (RecordUpdate h r rm).2 !! k
                      = ReceivedClients rm !! k)
     ∧ CurrentRound (RecordUpdate h r rm).2 = CurrentRound rm
     ∧ ExpectedClients (RecordUpdate h r rm).2 = ExpectedClients rm).
Proof.
  destruct (RecordUpdate_inv h r rm) as
    [Hr | Hr Hs | Hr Hs Hh | Hr Hs Hh Hq | Hr Hs Hh Hq]; simpl.
  - split; [split; [done|]|done]. by intros (? & _).
  - split; [split; [done|]|done]. by intros (_ & ? & _).
  - split; [split; [done|]|done]. intros (_ & _ & Hno).
    apply has_submitted_true in Hh. congruence.
  - split; [done|]. intros _. repeat split; try done.
    intros k Hk. by rewrite lookup_insert_ne.
  - split; [done|]. intros _. repeat split; try done.
    intros k Hk. by rewrite lookup_insert_ne.
Qed.

(** Below the quorum, on a manager that stores only [true]: the calls of
    hospitals not yet recorded, pairwise different, for the current round. *)
Lemma fresh_calls_accepted rm hs :
  only_true rm → State rm = RoundWaiting → NoDup hs →
  (∀ h, h ∈ hs → has_submitted h rm = false) →
  received rm + Z.of_nat (length hs) < ExpectedClients rm →
  (run_calls (map (λ h, (h, CurrentRound rm)) hs) rm).1
  = replicate (length hs) (true, false)
  ∧ received (run_calls (map (λ h, (h, CurrentRound rm)) hs) rm).2
    = received rm + Z.of_nat (length hs)
  ∧ State (run_calls (map (λ h, (h, CurrentRound rm)) hs) rm).2
    = RoundWaiting.
Proof.
  revert rm. induction hs as [|h hs IH]; intros rm Hot Hwait Hnd Hfresh Hlt.
  { simpl. repeat split; [lia|done]. }
  apply NoDup_cons in Hnd as [Hh Hnd].
  assert (has_submitted h rm = false) as Hno by (apply Hfresh; left).
  pose proof (RecordUpdate_only_true h (CurrentRound rm) rm Hot) as Hot1.
  pose proof (size_insert_fresh h rm Hot Hno) as Hsize.
  cbn [map run_calls length].
  destruct (RecordUpdate_inv h (CurrentRound rm) rm) as
    [Hr | _ Hs | _ _ Hdup | _ _ _ Hq | _ _ _ Hq]; try done.
  { apply has_submitted_true in Hdup. congruence. }
  { unfold received in Hlt. cbn [length] in Hlt. lia. }
  set (rm1 := {| CurrentRound := CurrentRound rm;
                 ExpectedClients := ExpectedClients rm;
                 ReceivedClients := <[h := true]> (ReceivedClients rm);
                 State := RoundWaiting |}) in *.
  specialize (IH rm1 Hot1 eq_refl Hnd).
  assert (received rm1 = received rm + 1) as Hrec.
  { unfold received, rm1. simpl. rewrite Hsize. lia. }
  destruct IH as (Hans & Hcount & Hstate).
  - intros k Hk. unfold has_submitted, rm1. simpl.
    rewrite lookup_insert_ne by (intros ->; done).
    apply Hfresh. by right.
  - rewrite Hrec. change (ExpectedClients rm1) with (ExpectedClients rm).
    cbn [length] in Hlt. lia.
  - change (CurrentRound rm) with (CurrentRound rm1).
    destruct (run_calls (map (λ h0, (h0, CurrentRound rm1)) hs) rm1)
      as [answers rm2].
    cbn [fst snd] in *. rewrite Hans, Hcount, Hrec.
    cbn [length replicate]. repeat split; [lia|done].
Qed.

(** X2: from a round's start, fewer than quorumSize submissions of pairwise
    different hospitals for the current round are all accepted without
    quorum, and leave as many participants recorded as were submitted, the
    round still WAITING. *)
Theorem distinct_below_quorum rm hs :
  round_start rm → NoDup hs →
  Z.of_nat (length hs) < ExpectedClients rm →
  (run_calls (map (λ h, (h, CurrentRound rm)) hs) rm).1
  = replicate (length hs) (true, false)
  ∧ received (run_calls (map (λ h, (h, CurrentRound rm)) hs) rm).2
    = Z.of_nat (length hs)
  ∧ State (run_calls (map (λ h, (h, CurrentRound rm)) hs) rm).2
    = RoundWaiting.
Proof.
  intros [Hempty Hwait] Hnd Hlt.
  assert (received rm = 0) as Hzero.
  { unfold received. by rewrite Hempty, map_size_empty. }
  destruct (fresh_calls_accepted rm hs) as (Hans & Hcount & Hstate);
    try done.
  - intros k v. by rewrite Hempty, lookup_empty.
  - intros h _. unfold has_submitted. by rewrite Hempty, lookup_empty.
  - lia.
  - repeat split; try done. lia.
Qed.

Lemma distinct_below_quorum_witness :
  let rm := AdvanceRound (NewRoundManager 3) in
  (run_calls [("H2", 1); ("H1", 1)] rm).1 = [(true, false); (true, false)]
  ∧ received (run_calls [("H2", 1); ("H1", 1)] rm).2 = 2
  ∧ State (run_calls [("H2", 1); ("H1", 1)] rm).2 = RoundWaiting.
Proof.
  apply (distinct_below_quorum (AdvanceRound (NewRoundManager 3))
           ["H2"; "H1"]).
  - split; reflexivity.
  - apply (bool_decide_unpack (NoDup ["H2"; "H1"])). vm_compute. exact I.
  - vm_compute. reflexivity.
Defined.

End RoundManagerMore.

Section RoundManagerReachable.

Implicit Types (rm : RoundManager) (h : string) (r : Z).

(** X3: on a manager that stores only [true] (as every manager made by
    NewRoundManager does), the count of recorded participants after a run of
    RecordUpdate calls is the count before plus the number of calls
    answered accepted = true. *)
Theorem received_counts_accepted calls rm :
  only_true rm →
  received (run_calls calls rm).2
  = received rm + Z.of_nat (accepted_count (run_calls calls rm).1).
Proof.
  revert rm. induction calls as [|[h r] calls IH]; intros rm Hot.
  { simpl. lia. }
  cbn [run_calls].
  pose proof (RecordUpdate_only_true h r rm Hot) as Hot1.
  assert (received (RecordUpdate h r rm).2
          = received rm
            + Z.of_nat (accepted_count [(RecordUpdate h r rm).1])) as Hone.
  { destruct (RecordUpdate_inv h r rm) as
      [| | | _ _ Hno _ | _ _ Hno _]; simpl; try lia.
    all: unfold received; simpl; rewrite size_insert_fresh by done; lia. }
  destruct (RecordUpdate h r rm) as [[accepted quorumMet] rm1].
  specialize (IH rm1 Hot1).
  destruct (run_calls calls rm1) as [answers rm2].
  cbn [fst snd] in *. rewrite IH, Hone.
  destruct accepted; cbn [accepted_count]; lia.
Qed.

Lemma received_counts_accepted_witness :
  received
    (run_calls [("H1", 0); ("H1", 0); ("H2", 5); ("H2", 0)]
       (NewRoundManager 3)).2
  = received (NewRoundManager 3)
    + Z.of_nat
        (accepted_count
           (run_calls [("H1", 0); ("H1", 0); ("H2", 5); ("H2", 0)]
              (NewRoundManager 3)).1).
Proof.
  apply received_counts_accepted. intros k v. vm_compute. discriminate.
Defined.

Lemma NewRoundManager_round_inv quorum :
  1 <= quorum → round_inv (NewRoundManager quorum).
Proof.
  intros Hq. unfold round_inv, received; simpl. rewrite map_size_empty.
  repeat split; try done. lia.
Qed.

Lemma RecordUpdate_round_inv h r rm :
  round_inv rm → round_inv (RecordUpdate h r rm).2.
Proof.
  intros (Hot & Hnc & Hw & Ha).
  pose proof (RecordUpdate_only_true h r rm Hot) as Hot1.
  unfold round_inv, received in *.
  destruct (RecordUpdate_inv h r rm) as
    [| | | _ Hwait Hno Hq | _ Hwait Hno Hq]; simpl in *; try done.
  rewrite size_insert_fresh in * by done. specialize (Hw Hwait).
  repeat split; try done. intros _. lia.
Qed.

Lemma AdvanceRound_round_inv rm :
  1 <= ExpectedClients rm → round_inv (AdvanceRound rm).
Proof.
  intros Hq. unfold round_inv, received, AdvanceRound; simpl.
  rewrite map_size_empty. repeat split; try done. lia.
Qed.

Lemma apply_calls_snoc cs c rm :
  apply_calls (cs ++ [c]) rm = apply_call (apply_calls cs rm) c.
Proof. unfold apply_calls. by rewrite fold_left_app. Qed.

Lemma apply_calls_ExpectedClients cs rm :
  ExpectedClients (apply_calls cs rm) = ExpectedClients rm.
Proof.
  induction cs as [|c cs IH] using rev_ind; [done|].
  rewrite apply_calls_snoc, <- IH.
  destruct c; simpl; [apply RecordUpdate_ExpectedClients|done].
Qed.

(** X4: a manager made with quorumSize at least 1 is, after any sequence of
    RecordUpdate and AdvanceRound calls, never in state COMPLETE; it never
    holds more participants than quorumSize, holds exactly quorumSize when
    AGGREGATING, stores only [true], and has kept its quorumSize. *)
Theorem reachable_round_states quorum cs :
  1 <= quorum →
  State (apply_calls cs (NewRoundManager quorum)) ≠ RoundComplete
  ∧ received (apply_calls cs (NewRoundManager quorum)) <= quorum
  ∧ (State (apply_calls cs (NewRoundManager quorum)) = RoundAggregating →
     received (apply_calls cs (NewRoundManager quorum)) = quorum)
  ∧ only_true (apply_calls cs (NewRoundManager quorum))
  ∧ ExpectedClients (apply_calls cs (NewRoundManager quorum)) = quorum.
Proof.
  intros Hq.
  pose proof (apply_calls_ExpectedClients cs (NewRoundManager quorum))
    as Hsame. simpl in Hsame.
  assert (round_inv (apply_calls cs (NewRoundManager quorum))) as Hinv.
  { induction cs as [|c cs IH] using rev_ind.
    - by apply NewRoundManager_round_inv.
    - pose proof (apply_calls_ExpectedClients cs (NewRoundManager quorum))
        as Hsame1. simpl in Hsame1.
      rewrite apply_calls_snoc. destruct c; simpl.
      + apply RecordUpdate_round_inv. apply IH.
        by rewrite apply_calls_ExpectedClients.
      + apply AdvanceRound_round_inv. by rewrite Hsame1. }
  destruct Hinv as (Hot & Hnc & Hw & Ha). rewrite Hsame in *.
  repeat split; try done.
  destruct (State (apply_calls cs (NewRoundManager quorum))) eqn:Hst.
  - specialize (Hw eq_refl). lia.
  - specialize (Ha eq_refl). lia.
  - done.
Qed.

Lemma reachable_round_states_witness :
  let rm := apply_calls [CallRecordUpdate "H1" 0; CallRecordUpdate "H2" 0;
                         CallRecordUpdate "H3" 0]
              (NewRoundManager 2) in
  State rm ≠ RoundComplete
  ∧ received rm <= 2
  ∧ (State rm = RoundAggregating → received rm = 2)
  ∧ only_true rm
  ∧ ExpectedClients rm = 2.
Proof.
  apply (reachable_round_states 2). lia.
Defined.

(** [x++] never gives [x] back. *)
Lemma incr_neq z : GoInt.incr z ≠ z.
Proof.
  unfold GoInt.incr, GoInt.wrap. intros Heq.
  pose proof (Z.mod_pos_bound (z + 1 + 2 ^ 63) (2 ^ 64)) as Hb.
  assert (0 <= z + 2 ^ 63 < 2 ^ 64) as Hz by lia.
  destruct (decide (z + 1 + 2 ^ 63 < 2 ^ 64)) as [Hlt|Hge].
  - rewrite Z.mod_small in Heq by lia. lia.
  - assert (z + 1 + 2 ^ 63 = 2 ^ 64) as Htop by lia.
    rewrite Htop, Z.mod_same in Heq by lia. lia.
Qed.

(** X5: the round number of a manager made by NewRoundManager is the number
    of AdvanceRound calls made on it, as an [int]: RecordUpdate never moves
    it, and below the largest [int] it is that number itself. *)
Theorem round_counts_advances quorum cs :
  Z.of_nat (advances cs) <= GoInt.max_int →
  CurrentRound (apply_calls cs (NewRoundManager quorum))
  = Z.of_nat (advances cs).
Proof.
  assert (∀ cs, CurrentRound (apply_calls cs (NewRoundManager quorum))
                = GoInt.wrap (Z.of_nat (advances cs))) as Hwrap.
  { clear cs. intros cs. induction cs as [|c cs IH] using rev_ind; [done|].
    assert (∀ l1 l2, advances (l1 ++ l2) = (advances l1 + advances l2)%nat)
      as Happ.
    { intros l1 l2. induction l1 as [|[] l1 IHl]; simpl; lia. }
    rewrite apply_calls_snoc, Happ. destruct c; simpl.
    - rewrite RecordUpdate_CurrentRound, IH. f_equal. lia.
    - rewrite IH, incr_wrap. f_equal. lia. }
  intros Hmax. rewrite Hwrap. apply wrap_in_range.
  unfold GoInt.in_range, GoInt.min_int, GoInt.max_int in *. lia.
Qed.

Lemma round_counts_advances_witness :
  CurrentRound
    (apply_calls [CallRecordUpdate "H1" 0; CallAdvanceRound;
                  CallRecordUpdate "H1" 1; CallAdvanceRound]
       (NewRoundManager 3)) = 2.
Proof.
  apply (round_counts_advances 3
           [CallRecordUpdate "H1" 0; CallAdvanceRound;
            CallRecordUpdate "H1" 1; CallAdvanceRound]).
  vm_compute. discriminate.
Defined.

(** X6: a manager that is not WAITING answers every RecordUpdate call with
    (false, false) and is left as it was, however many calls follow: no
    RecordUpdate reopens a closed round. *)
Theorem closed_round_stays_closed calls rm :
  State rm ≠ RoundWaiting →
  run_calls calls rm = (replicate (length calls) (false, false), rm).
Proof.
  intros Hclosed. induction calls as [|[h r] calls IH]; [done|].
  cbn [run_calls]. rewrite closed_rejects by done. by rewrite IH.
Qed.

Lemma closed_round_stays_closed_witness :
  let rm := (run_calls [("H1", 0)] (NewRoundManager 1)).2 in
  run_calls [("H2", 0); ("H1", 0); ("H3", 1)] rm
  = (replicate 3 (false, false), rm).
Proof.
  apply (closed_round_stays_closed [("H2", 0); ("H1", 0); ("H3", 1)]).
  vm_compute. discriminate.
Defined.

(** X7: after AdvanceRound every hospital, recorded in the round before or
    not, is accepted for the new round number, and a submission that still
    names the round before is rejected. *)
Theorem new_round_accepts_again h rm :
  (RecordUpdate h (CurrentRound (AdvanceRound rm)) (AdvanceRound rm)).1.1
  = true
  ∧ (RecordUpdate h (CurrentRound rm) (AdvanceRound rm)).1.1 = false.
Proof.
  split.
  - destruct (RecordUpdate_inv h (CurrentRound (AdvanceRound rm))
                (AdvanceRound rm)) as [Hr | _ Hs | _ _ Hdup | |]; try done.
  - unfold RecordUpdate. rewrite decide_True; [done|].
    simpl. intros Heq. by apply (incr_neq (CurrentRound rm)).
Qed.

End RoundManagerReachable.

(** * Further properties of the server *)

Section SubmitHandler.

Implicit Types (s : Server) (packet : UpdatePacket).

Lemma Server_eta s :
  {| receivedUpdates := receivedUpdates s;
     globalWeights := globalWeights s;
     currentVersion := currentVersion s;
     roundManager := roundManager s |} = s.
Proof. by destruct s. Qed.

(** The three ways out of the handler, by the field test and the round
    manager's answer. *)
Lemma handleSubmitUpdate_cases packet s :
  let answer := RecordUpdate (HospitalID (PacketMetadata packet))
                  (RoundID (PacketMetadata packet)) (roundManager s) in
  (invalid_fields packet ∧ handleSubmitUpdate packet s = (SubmitBadRequest, s))
  ∨ (¬ invalid_fields packet ∧ answer.1.1 = false
     ∧ handleSubmitUpdate packet s = (SubmitConflict, s))
  ∨ (¬ invalid_fields packet ∧ answer.1.1 = true
     ∧ handleSubmitUpdate packet s
       = (SubmitAccepted
            (Z.of_nat (length (receivedUpdates s)) + 1)
            (received answer.2)
            (RoundState_String (State answer.2))
            answer.1.2,
          {| receivedUpdates := receivedUpdates s ++ [packet];
             globalWeights := globalWeights s;
             currentVersion := currentVersion s;
             roundManager := answer.2 |})).
Proof.
  intros answer. unfold handleSubmitUpdate, invalid_fields.
  case_decide as Hbad; [by left|right].
  pose proof (RecordUpdate_inv (HospitalID (PacketMetadata packet))
                (RoundID (PacketMetadata packet)) (roundManager s)) as Hcase.
  fold answer in Hcase |- *.
  destruct answer as [[accepted quorumMet] rm1] eqn:Hanswer.
  destruct accepted; simpl.
  - right. repeat split; try done. unfold Status.
    rewrite length_app. simpl. do 2 f_equal. lia.
  - left. repeat split; try done.
    inversion Hcase; subst; by rewrite Server_eta.
Qed.

(** X8: a submission answered with a bad request (no weights, an empty
    hospital id or a data size of 0 or less) or with a conflict (turned away
    by the round manager) leaves the whole server as it was; and a bad
    request is answered exactly on those field values, before the round
    manager is asked. *)
Theorem rejected_submission_unchanged packet s :
  ((handleSubmitUpdate packet s).1 = SubmitBadRequest
   ↔ invalid_fields packet)
  ∧ ((handleSubmitUpdate packet s).1 = SubmitBadRequest
     ∨ (handleSubmitUpdate packet s).1 = SubmitConflict →
     (handleSubmitUpdate packet s).2 = s).
Proof.
  destruct (handleSubmitUpdate_cases packet s) as
    [[Hbad ->] | [(Hok & Hrej & ->) | (Hok & Hacc & ->)]]; simpl.
  - split; [done|]. done.
  - split; [|done]. split; [done|]. intros Hbad. by destruct Hok.
  - split; [split; [done|]|].
    + intros Hbad. by destruct Hok.
    + by intros [|].
Qed.

(** X9: an accepted submission appends exactly its packet to the end of the
    buffer, answers the new buffer length as total_received and the round
    manager's quorum flag as quorum_met, and leaves the stored model and
    version alone. *)
Theorem accepted_submission_appends packet s total rr st quorumMet :
  (handleSubmitUpdate packet s).1 = SubmitAccepted total rr st quorumMet →
  receivedUpdates (handleSubmitUpdate packet s).2
  = receivedUpdates s ++ [packet]
  ∧ total = Z.of_nat (length (receivedUpdates s)) + 1
  ∧ handleUpdatesCount (handleSubmitUpdate packet s).2 = total
  ∧ quorumMet
    = (RecordUpdate (HospitalID (PacketMetadata packet))
         (RoundID (PacketMetadata packet)) (roundManager s)).1.2
  ∧ roundManager (handleSubmitUpdate packet s).2
    = (RecordUpdate (HospitalID (PacketMetadata packet))
         (RoundID (PacketMetadata packet)) (roundManager s)).2
  ∧ globalWeights (handleSubmitUpdate packet s).2 = globalWeights s
  ∧ currentVersion (handleSubmitUpdate packet s).2 = currentVersion s.
Proof.
  destruct (handleSubmitUpdate_cases packet s) as
    [[Hbad ->] | [(Hok & Hrej & ->) | (Hok & Hacc & ->)]]; simpl;
    [done..|].
  intros Heq. inversion Heq; subst. unfold handleUpdatesCount. simpl.
  rewrite length_app. simpl. repeat split; try done. lia.
Qed.

Lemma accepted_submission_appends_witness :
  let packet := simulatorPacket "H1" [10%float; 20%float] 100 0.5%float 0 in
  receivedUpdates (handleSubmitUpdate packet initServer).2 = [packet]
  ∧ 1 = Z.of_nat (length (receivedUpdates initServer)) + 1
  ∧ handleUpdatesCount (handleSubmitUpdate packet initServer).2 = 1
  ∧ false
    = (RecordUpdate (HospitalID (PacketMetadata packet))
         (RoundID (PacketMetadata packet)) (roundManager initServer)).1.2
  ∧ roundManager (handleSubmitUpdate packet initServer).2
    = (RecordUpdate (HospitalID (PacketMetadata packet))
         (RoundID (PacketMetadata packet)) (roundManager initServer)).2
  ∧ globalWeights (handleSubmitUpdate packet initServer).2
    = globalWeights initServer
  ∧ currentVersion (handleSubmitUpdate packet initServer).2
    = currentVersion initServer.
Proof.
  apply (accepted_submission_appends
           (simulatorPacket "H1" [10%float; 20%float] 100 0.5%float 0)
           initServer 1 1 "WAITING" false).
  reflexivity.
Defined.

End SubmitHandler.

Section ServerRuns.

Implicit Types (s : Server) (t : Run).

(** An aggregation either leaves the server as it was or stores a model,
    empties the buffer and opens the next round. *)
Lemma aggregateUpdates_cases s :
  ((aggregateUpdates s).1 = AggSkipped ∧ (aggregateUpdates s).2 = s)
  ∨ ((aggregateUpdates s).1 = AggPanicked ∧ (aggregateUpdates s).2 = s)
  ∨ ∃ newWeights,
      fedAvg (receivedUpdates s) = Some newWeights
      ∧ (3 <= length (receivedUpdates s))%nat
      ∧ aggregateUpdates s
        = (AggPublished {| weights := newWeights;
                           version := GoInt.incr (currentVersion s) |},
           {| receivedUpdates := [];
              globalWeights := Some newWeights;
              currentVersion := GoInt.incr (currentVersion s);
              roundManager := AdvanceRound (roundManager s) |}).
Proof.
  unfold aggregateUpdates. case_decide as Hlen; [by left|].
  destruct (fedAvg (receivedUpdates s)) as [newWeights|]; [|by right; left].
  right; right. exists newWeights. repeat split; [lia].
Qed.

Lemma initServer_inv : server_inv initServer.
Proof.
  unfold server_inv. split; [|split; [by apply NewRoundManager_round_inv|done]].
  unfold buffer_matches_round, hospitals; simpl.
  repeat split; try done.
  - constructor.
  - intros Hin. by apply elem_of_nil in Hin.
Qed.

Lemma handleSubmitUpdate_inv packet s :
  server_inv s → server_inv (handleSubmitUpdate packet s).2.
Proof.
  intros Hinv.
  destruct (handleSubmitUpdate_cases packet s) as
    [[Hbad ->] | [(Hok & Hrej & ->) | (Hok & Hacc & ->)]]; [done..|].
  destruct Hinv as ((Hnd & Hmem & Hlen & Hall) & Hround & Hq & Hver).
  pose proof (RecordUpdate_round_inv (HospitalID (PacketMetadata packet))
                (RoundID (PacketMetadata packet)) (roundManager s) Hround)
    as Hround1.
  destruct Hround as (Hot & _).
  set (h := HospitalID (PacketMetadata packet)) in *.
  set (r := RoundID (PacketMetadata packet)) in *.
  assert (r = CurrentRound (roundManager s)
          ∧ has_submitted h (roundManager s) = false
          ∧ ReceivedClients (RecordUpdate h r (roundManager s)).2
            = <[h := true]> (ReceivedClients (roundManager s))
          ∧ CurrentRound (RecordUpdate h r (roundManager s)).2
            = CurrentRound (roundManager s)
          ∧ ExpectedClients (RecordUpdate h r (roundManager s)).2
            = ExpectedClients (roundManager s))
    as (Hr & Hno & Hmap & Hcur & Hexp).
  { by destruct (RecordUpdate_inv h r (roundManager s)). }
  unfold server_inv, buffer_matches_round, received, hospitals in *.
  cbn [receivedUpdates roundManager currentVersion snd].
  rewrite Hmap, Hcur, Hexp, map_app, length_app.
  rewrite size_insert_fresh by done. cbn [map length].
  assert (h ∉ map (λ p, HospitalID (PacketMetadata p)) (receivedUpdates s))
    as Hfresh.
  { intros Hin. apply Hmem in Hin. apply has_submitted_true in Hin.
    congruence. }
  split; [|by split].
  repeat split; try done.
  - apply NoDup_app. repeat split; [done| |apply NoDup_singleton].
    intros k Hk Hk'. apply list_elem_of_singleton in Hk'. by subst.
  - intros Hin. apply elem_of_app in Hin as [Hin|Hin].
    + rewrite lookup_insert_ne; [by apply Hmem|]. intros ->. done.
    + apply list_elem_of_singleton in Hin. subst. apply lookup_insert_eq.
  - intros Hk. apply elem_of_app.
    destruct (decide (h0 = h)) as [->|Hne].
    + right. by apply list_elem_of_singleton.
    + left. apply Hmem. by rewrite lookup_insert_ne in Hk.
  - lia.
  - apply Forall_app. split; [done|]. by repeat constructor.
Qed.

Lemma aggregateUpdates_inv s :
  server_inv s → server_inv (aggregateUpdates s).2.
Proof.
  intros Hinv.
  destruct (aggregateUpdates_cases s) as
    [[_ ->] | [[_ ->] | (newWeights & _ & _ & ->)]]; [done..|].
  destruct Hinv as (_ & _ & Hq & Hver).
  unfold server_inv, buffer_matches_round, hospitals, received; simpl.
  rewrite map_size_empty, Hver.
  repeat split; try done.
  - constructor.
  - intros Hin. by apply elem_of_nil in Hin.
  - apply AdvanceRound_round_inv. lia.
Qed.

Lemma run_server_inv ops : server_inv (server (run ops)).
Proof.
  induction ops as [|op ops IH] using rev_ind; [apply initServer_inv|].
  rewrite run_snoc. unfold step. destruct (crashed (run ops)); [done|].
  destruct op as [packet|].
  - by apply handleSubmitUpdate_inv.
  - pose proof (aggregateUpdates_inv _ IH) as Hagg.
    by destruct (aggregateUpdates (server (run ops))) as [[| |snapshot] s1].
Qed.

End ServerRuns.

Section ServerRunClaims.

Implicit Types (s : Server) (t : Run).

(** X10: through every run of submissions and aggregations the buffer and
    the round manager agree: the buffered packets come from pairwise
    different hospitals, which are exactly the recorded ones; there are as
    many packets as recorded participants; and every buffered packet passed
    the field test and names the current round. *)
Theorem buffer_agrees_with_round ops :
  buffer_matches_round (server (run ops)).
Proof. by destruct (run_server_inv ops). Qed.

(** X11: through every run the buffer holds at most three packets, and it
    holds three exactly when the round is AGGREGATING; so an aggregation
    that stores a model has averaged exactly three packets, of three
    different hospitals, in a round that was closed. *)
Theorem publish_takes_three ops :
  (length (receivedUpdates (server (run ops))) <= 3)%nat
  ∧ (length (receivedUpdates (server (run ops))) = 3%nat
     ↔ State (roundManager (server (run ops))) = RoundAggregating)
  ∧ (∀ snapshot,
       (aggregateUpdates (server (run ops))).1 = AggPublished snapshot →
       length (receivedUpdates (server (run ops))) = 3%nat
       ∧ NoDup (hospitals (receivedUpdates (server (run ops))))
       ∧ State (roundManager (server (run ops))) = RoundAggregating).
Proof.
  destruct (run_server_inv ops) as
    ((Hnd & _ & Hlen & _) & (_ & Hnc & Hw & Ha) & Hq & _).
  set (s := server (run ops)) in *. clearbody s. rewrite Hq in *.
  unfold received in *.
  assert ((length (receivedUpdates s) <= 3)%nat
          ∧ (length (receivedUpdates s) = 3%nat
             ↔ State (roundManager s) = RoundAggregating)) as [Hle Hiff].
  { destruct (State (roundManager s)) eqn:Hst.
    - specialize (Hw eq_refl). split; [lia|].
      split; [intros Hthree; exfalso; lia|done].
    - specialize (Ha eq_refl). split; [lia|]. split; [done|intros _; lia].
    - done. }
  split; [done|]. split; [done|]. intros snapshot Hpub.
  destruct (aggregateUpdates_cases s) as
    [[Hout _] | [[Hout _] | (newWeights & _ & Hthree & Hout)]];
    rewrite Hout in Hpub; try done.
  assert (length (receivedUpdates s) = 3%nat) as Hexact by lia.
  repeat split; [done..|]. by apply Hiff.
Qed.

(** X12: the round number and the model version move together: in every run
    the round manager's current round equals the stored model version, both
    being counted up by a successful aggregation and by nothing else. *)
Theorem round_equals_version ops :
  CurrentRound (roundManager (server (run ops)))
  = currentVersion (server (run ops)).
Proof. by destruct (run_server_inv ops) as (_ & _ & _ & ?). Qed.

Lemma within_or_longer (updates : list UpdatePacket) n :
  Forall (λ p, (length (Server.Weights p) <= n)%nat) updates
  ∨ Exists (λ p, (n < length (Server.Weights p))%nat) updates.
Proof.
  induction updates as [|p updates [IH|IH]].
  - left. constructor.
  - destruct (decide (length (Server.Weights p) <= n)%nat).
    + left. by constructor.
    + right. apply Exists_cons_hd. lia.
  - right. by apply Exists_cons_tl.
Qed.

(** X13: how aggregateUpdates ends is decided by the buffer alone: it
    returns early exactly below three packets; otherwise it panics exactly
    when some weight vector is longer than the first one, and stores a model
    exactly when none is. *)
Theorem aggregateUpdates_outcome s :
  match (aggregateUpdates s).1 with
  | AggSkipped => (length (receivedUpdates s) < 3)%nat
  | AggPanicked =>
      (3 <= length (receivedUpdates s))%nat
      ∧ longer_than_first (receivedUpdates s)
  | AggPublished snapshot =>
      (3 <= length (receivedUpdates s))%nat
      ∧ within_first (receivedUpdates s)
      ∧ fedAvg (receivedUpdates s) = Some (weights snapshot)
  end.
Proof.
  unfold aggregateUpdates. case_decide as Hlen; [done|].
  destruct (receivedUpdates s) as [|first rest];
    [simpl in Hlen; lia|].
  destruct (within_or_longer (first :: rest)
              (length (Server.Weights first))) as [Hin|Hlong].
  - rewrite fedAvg_within_first by done. cbn [fst weights].
    split; [lia|]. by split.
  - rewrite fedAvg_longer_than_first by done. cbn [fst]. split; [lia|done].
Qed.

End ServerRunClaims.

Section StoredModel.

Implicit Types (s : Server) (t : Run).

(** X14: when the loops of aggregateUpdates end without a panic, the new
    weight vector has the length of the first buffered vector, and its entry
    [j] is the sum, in buffer order from zero, of the entries [j] of the
    buffered vectors that have one, divided by the number of all buffered
    packets: a shorter vector adds nothing to the dimensions it lacks but
    still counts in the divisor. *)
Theorem fedAvg_entries first rest ws :
  fedAvg (first :: rest) = Some ws →
  length ws = length (Server.Weights first)
  ∧ ∀ j, (j < length (Server.Weights first))%nat →
         ws !! j
         = Some (PrimFloat.div
                   (ragged_sum j (map Server.Weights (first :: rest))
                      PrimFloat.zero)
                   (float64_of_len (length (first :: rest)))).
Proof.
  intros Hsome.
  destruct (within_or_longer (first :: rest)
              (length (Server.Weights first))) as [Hin|Hlong];
    [|by rewrite fedAvg_longer_than_first in Hsome].
  rewrite fedAvg_within_first in Hsome by done.
  injection Hsome as <-. split.
  - unfold make_floats.
    by rewrite length_map, fold_add_onto_length, ?add_onto_length,
      length_replicate.
  - intros j Hj.
    change (fold_left add_onto (map Server.Weights rest)
              (add_onto (make_floats (length (Server.Weights first)))
                 (Server.Weights first)))
      with (fold_left add_onto (map Server.Weights (first :: rest))
              (make_floats (length (Server.Weights first)))).
    rewrite list_lookup_fmap, fold_add_onto_lookup.
    unfold make_floats. by rewrite lookup_replicate_2.
Qed.

Lemma fedAvg_entries_witness :
  let first := simulatorPacket "H1" [10%float; 20%float] 100 0.5%float 0 in
  let rest := tail unevenPackets in
  let ws := [20%float; PrimFloat.div 80 3] in
  length ws = length (Server.Weights first)
  ∧ ∀ j, (j < length (Server.Weights first))%nat →
         ws !! j
         = Some (PrimFloat.div
                   (ragged_sum j (map Server.Weights (first :: rest))
                      PrimFloat.zero)
                   (float64_of_len (length (first :: rest)))).
Proof.
  apply (fedAvg_entries
           (simulatorPacket "H1" [10%float; 20%float] 100 0.5%float 0)
           (tail unevenPackets)).
  vm_compute. reflexivity.
Defined.

(** The snapshots stored so far stay stored, in order, whatever follows. *)
Lemma published_grows ops t :
  published t `prefix_of` published (fold_left step ops t).
Proof.
  revert t. induction ops as [|op ops IH]; intros t; [done|].
  simpl. etrans; [|apply IH].
  unfold step. destruct (crashed t); [done|].
  destruct op as [packet|]; [done|].
  destruct (aggregateUpdates (server t)) as [[| |snapshot] s1]; simpl;
    try done.
  by apply prefix_app_r.
Qed.

(** X15: the store never goes back to empty: once a read of the global
    model has found a model, every read later in the run finds one, and the
    snapshots stored up to then remain the first ones stored. *)
Theorem model_stays_found ops1 ops2 :
  handleGetGlobalModel (server (run ops1)) ≠ ModelNotFound →
  handleGetGlobalModel (server (run (ops1 ++ ops2))) ≠ ModelNotFound
  ∧ published (run ops1) `prefix_of` published (run (ops1 ++ ops2)).
Proof.
  intros Hfound.
  assert (published (run ops1) `prefix_of` published (run (ops1 ++ ops2)))
    as Hprefix.
  { unfold run. rewrite fold_left_app. apply published_grows. }
  split; [|done].
  destruct (run_invariant ops1) as (Hstore1 & _ & _).
  destruct (run_invariant (ops1 ++ ops2)) as (Hstore2 & _ & _).
  unfold store_is_latest, handleGetGlobalModel in *.
  destruct (last (published (run ops1))) as [snap1|] eqn:Hlast1;
    [|by rewrite Hstore1 in Hfound].
  destruct (last (published (run (ops1 ++ ops2)))) as [snap2|] eqn:Hlast2.
  - destruct Hstore2 as [-> _]. done.
  - apply last_None in Hlast2. rewrite Hlast2 in Hprefix.
    apply prefix_nil_inv in Hprefix. by rewrite Hprefix in Hlast1.
Qed.

Lemma model_stays_found_witness :
  handleGetGlobalModel
    (server (run (simulatorRound 0 ++ map OpSubmit (simulatorPackets 1))))
  ≠ ModelNotFound
  ∧ published (run (simulatorRound 0))
    `prefix_of`
    published (run (simulatorRound 0 ++ map OpSubmit (simulatorPackets 1))).
Proof.
  apply model_stays_found. vm_compute. discriminate.
Defined.

End StoredModel.

(** * The simulated client *)

Section ClientSync.

Implicit Types (st : Client.LocalClientState)
  (fetched : Client.GlobalModelResponse * bool).

(** One sync: either nothing changes and [false] is returned, or the fetch
    succeeded with a strictly newer version, which is taken over with its
    weights, and [true] is returned. *)
Lemma syncModel_cases fetched st :
  (Client.syncModel fetched st = (false, st)
   ∧ (fetched.2 = false
      ∨ Client.ServerModelVersion fetched.1 <= Client.ModelVersion st))
  ∨ (Client.syncModel fetched st
     = (true, {| Client.ModelVersion := Client.ServerModelVersion fetched.1;
                 Client.Weights := Client.ServerWeights fetched.1 |})
     ∧ fetched.2 = true
     ∧ Client.ServerModelVersion fetched.1 > Client.ModelVersion st).
Proof.
  unfold Client.syncModel. destruct fetched as [serverModel [|]]; simpl.
  - case_decide; [right|left]; repeat split; try done. right. lia.
  - left. split; [done|by left].
Qed.

(** X16: syncModel repeated on what one fetch returned changes nothing more:
    the second call returns false and leaves the state the first call
    left. *)
Theorem syncModel_idempotent fetched st :
  Client.syncModel fetched (Client.syncModel fetched st).2
  = (false, (Client.syncModel fetched st).2).
Proof.
  destruct (syncModel_cases fetched st) as [[-> Hold] | (-> & Hok & Hnew)];
    simpl.
  - destruct (syncModel_cases fetched st) as [[-> _] | (_ & Hok & Hnew)];
      [done|].
    destruct Hold as [Hfail|Hle]; [congruence|lia].
  - unfold Client.syncModel. destruct fetched as [serverModel ok].
    simpl in *. subst ok. simpl. rewrite decide_False; [done|lia].
Qed.

(** X17: through any number of syncs the local model version never goes
    down: it ends as the largest of the version the client started with and
    the versions of the fetches that succeeded, and a client whose version
    has not moved has kept its state whole. *)
Theorem sync_never_downgrades fetches st :
  Client.ModelVersion (Client.syncAll fetches st)
  = foldl Z.max (Client.ModelVersion st) (Client.fetchedVersions fetches)
  ∧ Client.ModelVersion st
    <= Client.ModelVersion (Client.syncAll fetches st)
  ∧ (Client.ModelVersion (Client.syncAll fetches st)
     = Client.ModelVersion st →
     Client.syncAll fetches st = st).
Proof.
  revert st. induction fetches as [|fetched fetches IH]; intros st.
  { simpl. split; [done|]. split; [lia|done]. }
  unfold Client.syncAll in *. cbn [fold_left].
  destruct (IH (Client.syncModel fetched st).2) as (Hmax & Hle & Hsame).
  destruct (syncModel_cases fetched st) as [[Heq Hold] | (Heq & Hok & Hnew)];
    rewrite Heq in *; cbn [snd Client.ModelVersion] in *.
  - assert (foldl Z.max (Client.ModelVersion st)
              (Client.fetchedVersions (fetched :: fetches))
            = foldl Z.max (Client.ModelVersion st)
                (Client.fetchedVersions fetches)) as ->.
    { destruct fetched as [serverModel [|]]; simpl in *; [|done].
      destruct Hold as [|Hle']; [done|]. by rewrite Z.max_l by lia. }
    done.
  - assert (foldl Z.max (Client.ModelVersion st)
              (Client.fetchedVersions (fetched :: fetches))
            = foldl Z.max (Client.ServerModelVersion fetched.1)
                (Client.fetchedVersions fetches)) as ->.
    { destruct fetched as [serverModel ok]; simpl in *; subst ok. simpl.
      by rewrite Z.max_r by lia. }
    split; [done|]. split; [lia|]. intros Hback. lia.
Qed.

End ClientSync.

Section ClientAndServer.



End ClientAndServer.

(** * The flat weight format *)

Section FlatWeightFormat.

Lemma FlatWeights_app (m : Hospital.Model) :
  Hospital.FlatWeights m = Hospital.Weights m ++ [Hospital.Bias m].
Proof.
  unfold Hospital.FlatWeights, Hospital.copy, make_floats.
  rewrite length_replicate, take_ge by lia.
  rewrite drop_replicate.
  replace (length (Hospital.Weights m) + 1
           - length (Hospital.Weights m))%nat with 1%nat by lia.
  simpl. by rewrite insert_app_r_alt, Nat.sub_diag by done.
Qed.

Lemma NewModelFromWeights_app ws (bias : float) :
  Hospital.NewModelFromWeights (ws ++ [bias])
  = Some {| Hospital.Weights := ws; Hospital.Bias := bias |}.
Proof.
  unfold Hospital.NewModelFromWeights, Hospital.copy, make_floats.
  rewrite length_app, Nat.add_1_r. simpl.
  rewrite length_replicate, take_app_length, firstn_all.
  rewrite drop_replicate, Nat.sub_diag, app_nil_r. simpl.
  by rewrite list_lookup_middle.
Qed.

(** X19: decoding the flat form of a model gives the model back: FlatWeights
    puts the bias after the weights, and NewModelFromWeights splits them
    again. *)
Theorem FlatWeights_round_trip (m : Hospital.Model) :
  Hospital.NewModelFromWeights (Hospital.FlatWeights m) = Some m
  ∧ length (Hospital.FlatWeights m)
    = S (length (Hospital.Weights m)).
Proof.
  rewrite FlatWeights_app, NewModelFromWeights_app, length_app. simpl.
  split; [by destruct m|lia].
Qed.

(** X20: NewModelFromWeights panics exactly on the empty slice; on every
    other slice it returns a model whose flat form is that slice, the last
    entry being the bias. *)
Theorem NewModelFromWeights_round_trip (flat : list float) :
  (Hospital.NewModelFromWeights flat = None ↔ flat = [])
  ∧ (∀ m, Hospital.NewModelFromWeights flat = Some m →
          Hospital.FlatWeights m = flat
          ∧ last flat = Some (Hospital.Bias m)).
Proof.
  destruct flat as [|x flat] using rev_ind.
  - split; [done|]. intros m Hm. discriminate.
  - clear IHflat. rewrite NewModelFromWeights_app. split.
    + split; [done|]. intros Hnil. by destruct flat.
    + intros m Hm. injection Hm as <-.
      by rewrite FlatWeights_app, last_snoc.
Qed.

End FlatWeightFormat.
